(** * Page-table walker of [tooling/pageviz.py]

    A shallow embedding of the x86-64 paging-structure visualiser and the
    properties of its flag decoder, table reader and recursive walker.

    The Python module keeps three pieces of mutable state while it walks a
    dump: the dictionary [nodes] of node identifiers already handed to
    graphviz, the [graphviz.Digraph] object [dot] (whose body is the list of
    node and edge statements in the order they were issued) and the standard
    output on which out-of-bounds tables are reported.  They are threaded
    explicitly through the embedding as a record.  Python exceptions are the
    [Raise] results of a small error monad. *)

From Stdlib Require Import ZArith Lia Strings.String Strings.Ascii Strings.Byte.
From Stdlib Require Import Numbers.DecimalString Numbers.HexadecimalString
  Numbers.DecimalZ.
From stdpp Require Import base tactics option list list_numbers gmap strings
  relations.

Local Open Scope string_scope.
Local Open Scope Z_scope.
Local Open Scope list_scope.

(** ** Exceptions and the error monad *)

Inductive exn : Type :=
| StructError   (* struct.error: the buffer handed to unpack is not 8 bytes *)
| KeyError      (* a dictionary was indexed by a key it does not hold *)
| OutOfFuel.    (* not a Python exception: the recursion budget of the model *)

Inductive res (A : Type) : Type :=
| Ok (a : A)
| Raise (e : exn).
Arguments Ok {A} a.
Arguments Raise {A} e.

#[global] Instance res_bind : MBind res := λ A B (k : A → res B) (m : res A),
  match m with
  | Ok a => k a
  | Raise e => Raise e
  end.

(** A [for] loop whose body can raise. *)
Fixpoint for_each {A S} (body : A → S → res S) (l : list A) (s : S) : res S :=
  match l with
  | [] => Ok s
  | x :: l' => s' ← body x s ; for_each body l' s'
  end.

(** ** Constants *)

Definition PAGE_TABLE_ENTRIES : Z := 512.
Definition ENTRY_SIZE : Z := 8.

(** The keys of the [FLAG_MASKS] dictionary. *)
Inductive flag : Type := P | RW | US | PWT | PCD | A | D | PS | G.

Definition flag_name (f : flag) : string :=
  match f with
  | P => "P" | RW => "R/W" | US => "U/S" | PWT => "PWT" | PCD => "PCD"
  | A => "A" | D => "D" | PS => "PS" | G => "G"
  end.

Definition flag_bit (f : flag) : Z :=
  match f with
  | P => 0 | RW => 1 | US => 2 | PWT => 3 | PCD => 4
  | A => 5 | D => 6 | PS => 7 | G => 8
  end.

(** [FLAG_MASKS[f]] *)
Definition flag_mask (f : flag) : Z := Z.shiftl 1 (flag_bit f).

(** The dictionary in insertion order, which is the order of [.items()]. *)
Definition FLAG_MASKS : list flag := [P; RW; US; PWT; PCD; A; D; PS; G].

(** Truth value of a Python integer. *)
Definition truthy (n : Z) : bool := negb (n =? 0).

(** ** Flag decoder and address extraction *)

(** The list [flags] built by the loop of [decode_flags]. *)
Definition decode_flags_list (entry : Z) : list string :=
  foldl (λ flags f,
           if truthy (Z.land entry (flag_mask f))
           then flags ++ [flag_name f] else flags)
        [] FLAG_MASKS.

(** [sep.join(l)] *)
Definition join (sep : string) (l : list string) : string :=
  String.concat sep l.

Definition decode_flags (entry : Z) : string :=
  join ", " (decode_flags_list entry).

Definition get_next_table_addr (entry : Z) : Z :=
  Z.land entry 0x000FFFFFFFFFF000.

(** ** Byte buffers *)

(** Normalisation of one bound of a slice of a sequence of length [len]:
    negative bounds count from the end, and everything is clamped. *)
Definition slice_bound (len i : Z) : Z :=
  if i <? 0 then Z.max (i + len) 0 else Z.min i len.

(** [l[lo:hi]] *)
Definition slice {T} (l : list T) (lo hi : Z) : list T :=
  let len := Z.of_nat (length l) in
  let lo' := slice_bound len lo in
  let hi' := slice_bound len hi in
  take (Z.to_nat (hi' - lo')) (drop (Z.to_nat lo') l).

Definition byte_val (b : byte) : Z := Z.of_N (Byte.to_N b).

(** Little-endian value of a byte string. *)
Definition le_value (bs : list byte) : Z :=
  foldr (λ b acc, byte_val b + 256 * acc) 0 bs.

(** [struct.unpack('<Q', entry_bytes)[0]] *)
Definition unpack_Q (entry_bytes : list byte) : res Z :=
  if (length entry_bytes =? 8)%nat then Ok (le_value entry_bytes)
  else Raise StructError.

(** ** Text formatting *)

(** [f"{n}"] *)
Definition dec (n : Z) : string :=
  DecimalString.NilZero.string_of_int (Z.to_int n).

(** [f"{n:x}"] *)
Definition hex (n : Z) : string :=
  HexadecimalString.NilZero.string_of_int (Z.to_hex_int n).

(** ** The graph under construction *)

Inductive table_type : Type := PML4 | PDPT | PD | PT.

Definition table_type_eqb (a b : table_type) : bool :=
  match a, b with
  | PML4, PML4 | PDPT, PDPT | PD, PD | PT, PT => true
  | _, _ => false
  end.

(** The dictionary [{'PML4': 'PDPT', 'PDPT': 'PD', 'PD': 'PT'}]. *)
Definition next_table_types (t : table_type) : option table_type :=
  match t with
  | PML4 => Some PDPT
  | PDPT => Some PD
  | PD => Some PT
  | PT => None
  end.

(** One element of [entries_data]: [(index, entry_phys_addr, decoded_flags)]. *)
Definition row : Type := Z * Z * string.

(** What the HTML label of a node is rendered from: the heading
    [{table_type} @ 0x{phys_addr:x}] and one table line per row.  The markup
    itself is constant text around these three values and is not modelled. *)
Record html_label : Type := Label {
  label_type : table_type;
  label_addr : Z;
  label_rows : list row
}.

(** A statement in the body of the [Digraph]. *)
Inductive stmt : Type :=
| node (name : string) (label : html_label)
| edge (tail_name head_name : string) (label : string).

Record state : Type := State {
  nodes : gmap string bool;
  dot : list stmt;
  stdout : list string
}.

Definition initial_state : state := State ∅ [] [].

Definition dot_node (name : string) (label : html_label) (s : state) : state :=
  State (nodes s) (dot s ++ [node name label]) (stdout s).

Definition dot_edge (tail_name head_name label : string) (s : state) : state :=
  State (nodes s) (dot s ++ [edge tail_name head_name label]) (stdout s).

Definition print (line : string) (s : state) : state :=
  State (nodes s) (dot s) (stdout s ++ [line]).

(** [f"table_{phys_addr}"] *)
Definition node_id_of (phys_addr : Z) : string := "table_" +:+ dec phys_addr.

(** [f'[{index}]'] *)
Definition edge_label (index : Z) : string := "[" +:+ dec index +:+ "]".

Definition out_of_bounds_message (phys_addr : Z) : string :=
  "Error: Physical address 0x" +:+ hex phys_addr +:+
  " is outside the dump bounds.".

(** Truth value of what [traverse] returns: [None] and the empty string are
    false. *)
Definition truthy_id (r : option string) : bool :=
  match r with
  | Some id => negb (String.eqb id "")
  | None => false
  end.

(** ** The closures of [parse_paging_structure] *)

Section parse_paging_structure.

Variable dump_bytes : list byte.
Variable dump_base_phys_addr : Z.

Definition get_dump_offset (phys_addr : Z) : Z :=
  phys_addr - dump_base_phys_addr.

Definition add_table_node (phys_addr : Z) (ty : table_type)
    (entries_data : list row) (s : state) : state * string :=
  let node_id := node_id_of phys_addr in
  if decide (is_Some (nodes s !! node_id)) then (s, node_id)
  else
    let s1 := State (<[node_id := true]> (nodes s)) (dot s) (stdout s) in
    (dot_node node_id (Label ty phys_addr entries_data) s1, node_id).

(** The local variables of [traverse] that its [for] loop updates, together
    with the shared state. *)
Record locals : Type := Locals {
  shared : state;
  current_table_entries_data : list row;
  next_level_nodes : list (Z * string)
}.

(** The bounds test at the head of [traverse]. *)
Definition outside_dump (offset : Z) : bool :=
  (offset <? 0) || (offset + 4096 >? Z.of_nat (length dump_bytes)).

(** Body of the loop over the 512 slots; [rec] is the recursive call. *)
Definition visit_entry
    (rec : Z → table_type → state → res (state * option string))
    (offset : Z) (ty : table_type) (is_leaf_table : bool)
    (i : Z) (v : locals) : res locals :=
  let entry_bytes :=
    slice dump_bytes (offset + i * ENTRY_SIZE) (offset + (i + 1) * ENTRY_SIZE) in
  entry_value ← unpack_Q entry_bytes ;
  if negb (truthy (Z.land entry_value (flag_mask P))) then Ok v
  else
    let decoded_flags := decode_flags entry_value in
    let next_phys_addr := get_next_table_addr entry_value in
    let rows :=
      current_table_entries_data v ++ [(i, next_phys_addr, decoded_flags)] in
    if negb is_leaf_table && negb (truthy (Z.land entry_value (flag_mask PS)))
    then
      match next_table_types ty with
      | None => Raise KeyError
      | Some next_table_type =>
          '(s', next_node_id) ← rec next_phys_addr next_table_type (shared v) ;
          match next_node_id with
          | Some id =>
              if truthy_id next_node_id
              then Ok (Locals s' rows (next_level_nodes v ++ [(i, id)]))
              else Ok (Locals s' rows (next_level_nodes v))
          | None => Ok (Locals s' rows (next_level_nodes v))
          end
      end
    else Ok (Locals (shared v) rows (next_level_nodes v)).

Definition traverse_body
    (rec : Z → table_type → state → res (state * option string))
    (phys_addr : Z) (ty : table_type) (s : state)
    : res (state * option string) :=
  let offset := get_dump_offset phys_addr in
  if outside_dump offset then
    Ok (print (out_of_bounds_message phys_addr) s, None)
  else
    let is_leaf_table := table_type_eqb ty PT in
    v ← for_each (visit_entry rec offset ty is_leaf_table)
                 (seqZ 0 PAGE_TABLE_ENTRIES) (Locals s [] []) ;
    let '(s1, current_node_id) :=
      add_table_node phys_addr ty (current_table_entries_data v) (shared v) in
    let s2 :=
      foldl (λ s '(index, next_node_id),
               dot_edge current_node_id next_node_id (edge_label index) s)
            s1 (next_level_nodes v) in
    Ok (s2, Some current_node_id).

(** [traverse], with a budget on the depth of the recursion. *)
Fixpoint traverse (fuel : nat) (phys_addr : Z) (ty : table_type) (s : state)
    : res (state * option string) :=
  match fuel with
  | O => Raise OutOfFuel
  | S fuel' => traverse_body (traverse fuel') phys_addr ty s
  end.

End parse_paging_structure.

(** The result of a run: the graph that is returned and what was printed. *)
Record outcome : Type := Outcome {
  graph : list stmt;
  printed : list string
}.

Definition parse_paging_structure_fuel (fuel : nat) (dump_bytes : list byte)
    (dump_base_phys_addr pml4_offset_in_dump : Z) : res outcome :=
  let pml4_phys_addr := dump_base_phys_addr + pml4_offset_in_dump in
  '(s, _) ← traverse dump_bytes dump_base_phys_addr fuel pml4_phys_addr PML4
              initial_state ;
  Ok (Outcome (dot s) (stdout s)).

(** Four frames are the deepest the recursion goes (see [traverse_total]). *)
Definition parse_paging_structure := parse_paging_structure_fuel 4.


(** * Properties *)

(** ** Bits and masks *)

Lemma truthy_land_pow2 (v k : Z) :
  0 ≤ k → truthy (Z.land v (Z.shiftl 1 k)) = Z.testbit v k.
Proof.
  intros Hk. unfold truthy.
  destruct (Z.testbit v k) eqn:Hb.
  - apply negb_true_iff, Z.eqb_neq. intros H0.
    assert (Hk' : Z.testbit (Z.land v (Z.shiftl 1 k)) k = true).
    { rewrite Z.land_spec, Hb, Z.shiftl_spec by lia.
      replace (k - k) with 0 by lia. reflexivity. }
    rewrite H0, Z.bits_0 in Hk'. discriminate.
  - apply negb_false_iff, Z.eqb_eq, Z.bits_inj'. intros n Hn.
    rewrite Z.land_spec, Z.bits_0, Z.shiftl_spec by lia.
    destruct (decide (n = k)) as [->|Hne]; [by rewrite Hb|].
    destruct (decide (n < k)).
    + rewrite (Z.testbit_neg_r 1 (n - k)) by lia. apply andb_false_r.
    + replace (Z.testbit 1 (n - k)) with false; [apply andb_false_r|].
      symmetry. change 1 with (2 ^ 0). apply Z.pow2_bits_false. lia.
Qed.

Lemma truthy_flag (v : Z) (f : flag) :
  truthy (Z.land v (flag_mask f)) = Z.testbit v (flag_bit f).
Proof. apply truthy_land_pow2. destruct f; simpl; lia. Qed.

Lemma get_next_table_addr_bits (v n : Z) :
  0 ≤ n →
  Z.testbit (get_next_table_addr v) n
  = Z.testbit v n && bool_decide (12 ≤ n ≤ 51).
Proof.
  intros Hn. unfold get_next_table_addr. rewrite Z.land_spec. f_equal.
  change 0x000FFFFFFFFFF000 with (Z.shiftl (Z.ones 40) 12).
  rewrite Z.shiftl_spec by lia.
  destruct (decide (n < 12)).
  - rewrite Z.testbit_neg_r by lia. symmetry. apply bool_decide_eq_false. lia.
  - destruct (decide (n ≤ 51)).
    + rewrite Z.ones_spec_low by lia. symmetry. apply bool_decide_eq_true. lia.
    + rewrite Z.ones_spec_high by lia. symmetry.
      apply bool_decide_eq_false. lia.
Qed.

(** ** The decoder *)

Lemma decode_flags_list_filter (entry : Z) :
  decode_flags_list entry
  = flag_name <$> filter (λ f, Z.testbit entry (flag_bit f)) FLAG_MASKS.
Proof.
  unfold decode_flags_list, FLAG_MASKS. cbn [foldl].
  rewrite !truthy_flag, !filter_cons, filter_nil. cbv beta. cbn [flag_bit].
  repeat match goal with
         | |- context [Z.testbit entry ?k] =>
             generalize (Z.testbit entry k); intros []
         end; reflexivity.
Qed.

(** ** Slices and little-endian decoding *)

Lemma slice_inside {T} (l : list T) (lo hi : Z) :
  0 ≤ lo → lo ≤ hi → hi ≤ Z.of_nat (length l) →
  slice l lo hi = take (Z.to_nat (hi - lo)) (drop (Z.to_nat lo) l).
Proof.
  intros H0 H1 H2. unfold slice, slice_bound.
  destruct (Z.ltb_spec lo 0); [lia|].
  destruct (Z.ltb_spec hi 0); [lia|].
  by rewrite !Z.min_l by lia.
Qed.

Lemma slice_length {T} (l : list T) (lo hi : Z) :
  0 ≤ lo → lo ≤ hi → hi ≤ Z.of_nat (length l) →
  Z.of_nat (length (slice l lo hi)) = hi - lo.
Proof.
  intros H0 H1 H2. rewrite slice_inside by done.
  rewrite length_take, length_drop. lia.
Qed.

(** ** Identifiers are injective renderings *)

Lemma to_int_proper (n : Z) :
  Z.to_int n ≠ Decimal.Pos Decimal.Nil ∧ Z.to_int n ≠ Decimal.Neg Decimal.Nil.
Proof.
  destruct n as [|p|p]; cbn; split; try discriminate;
    intros [= H]; by apply DecimalPos.Unsigned.to_uint_nonnil in H.
Qed.

Lemma dec_inj (a b : Z) : dec a = dec b → a = b.
Proof.
  unfold dec. intros H. apply DecimalZ.to_int_inj.
  destruct (to_int_proper a) as [Ha1 Ha2], (to_int_proper b) as [Hb1 Hb2].
  pose proof (DecimalString.NilZero.isi _ Ha1 Ha2) as Ea.
  pose proof (DecimalString.NilZero.isi _ Hb1 Hb2) as Eb.
  rewrite H in Ea. congruence.
Qed.

Lemma append_cons (c : ascii) (s t : string) :
  String c s +:+ t = String c (s +:+ t).
Proof. reflexivity. Qed.

Lemma append_length (s t : string) :
  String.length (s +:+ t) = (String.length s + String.length t)%nat.
Proof.
  induction s as [|c s IH]; [done|].
  rewrite append_cons. cbn [String.length]. by rewrite IH.
Qed.

Lemma append_inj_l (s1 s2 t : string) : s1 +:+ t = s2 +:+ t → s1 = s2.
Proof.
  revert s2. induction s1 as [|c s1 IH]; intros [|c' s2] H.
  - done.
  - apply (f_equal String.length) in H.
    rewrite !append_length in H. cbn [String.length] in H. lia.
  - apply (f_equal String.length) in H.
    rewrite !append_length in H. cbn [String.length] in H. lia.
  - rewrite !append_cons in H. injection H as -> H. f_equal. by apply IH.
Qed.

Lemma node_id_of_inj (a b : Z) : node_id_of a = node_id_of b → a = b.
Proof.
  unfold node_id_of. intros H. by apply (inj (String.append _)), dec_inj in H.
Qed.

Lemma edge_label_inj (i j : Z) : edge_label i = edge_label j → i = j.
Proof.
  unfold edge_label. intros H.
  by apply (inj (String.append _)), append_inj_l, dec_inj in H.
Qed.

(** ** The walk, described without the error monad *)

Section walker.

Variable dump_bytes : list byte.
Variable dump_base_phys_addr : Z.

Abbreviation offset_of := (get_dump_offset dump_base_phys_addr).
Abbreviation outside := (outside_dump dump_bytes).
Abbreviation visit := (visit_entry dump_bytes).
Abbreviation body := (traverse_body dump_bytes dump_base_phys_addr).
Abbreviation trav := (traverse dump_bytes dump_base_phys_addr).

(** The 4096 bytes of the table at [pa] lie inside the dump. *)
Definition in_bounds (pa : Z) : Prop :=
  0 ≤ offset_of pa ∧ offset_of pa + 4096 ≤ Z.of_nat (length dump_bytes).

#[global] Instance in_bounds_dec pa : Decision (in_bounds pa).
Proof. unfold in_bounds. apply _. Defined.

Lemma outside_false pa : outside (offset_of pa) = false ↔ in_bounds pa.
Proof.
  unfold outside_dump, in_bounds. rewrite orb_false_iff, Z.ltb_ge.
  unfold Z.gtb. destruct (Z.compare_spec (offset_of pa + 4096)
    (Z.of_nat (length dump_bytes))); intuition (try lia; try discriminate).
Qed.

Lemma outside_true pa : outside (offset_of pa) = true ↔ ¬ in_bounds pa.
Proof. rewrite <- outside_false. destruct (outside _); naive_solver. Qed.

(** Value of slot [i] of the table at [pa], as [traverse] computes it. *)
Definition entry_at (pa i : Z) : Z :=
  le_value (slice dump_bytes (offset_of pa + i * ENTRY_SIZE)
                             (offset_of pa + (i + 1) * ENTRY_SIZE)).

Definition row_of (pa i : Z) : row :=
  (i, get_next_table_addr (entry_at pa i), decode_flags (entry_at pa i)).

(** The rows of the table at [pa]: its present slots in increasing order. *)
Definition present_rows (pa : Z) : list row :=
  row_of pa <$>
    filter (λ i, Z.testbit (entry_at pa i) 0) (seqZ 0 PAGE_TABLE_ENTRIES).

(** A slot the walker descends through: present, in a table that is not a
    leaf, and not a huge page. *)
Definition descends (ty : table_type) (e : Z) : bool :=
  Z.testbit e 0 && negb (table_type_eqb ty PT) && negb (Z.testbit e 7).

Definition descending (ty : table_type) (pa : Z) : list Z :=
  filter (λ i, descends ty (entry_at pa i)) (seqZ 0 PAGE_TABLE_ENTRIES).

Definition child_of (pa i : Z) : Z := get_next_table_addr (entry_at pa i).

Definition link (i : Z) (r : option string) : list (Z * string) :=
  match r with
  | Some id => if truthy_id r then [(i, id)] else []
  | None => []
  end.

Definition walk_children (child : Z → state → state * option string)
    (pa : Z) (l : list Z) (acc : state * list (Z * string))
    : state * list (Z * string) :=
  foldl (λ '(s, nl) i,
           let '(s', r) := child (child_of pa i) s in (s', nl ++ link i r))
        acc l.

Definition add_edges (current_node_id : string) (nl : list (Z * string))
    (s : state) : state :=
  foldl (λ s '(index, next_node_id),
           dot_edge current_node_id next_node_id (edge_label index) s)
        s nl.

Definition walk_step (ty : table_type)
    (child : Z → state → state * option string) (pa : Z) (s : state)
    : state * option string :=
  if decide (in_bounds pa) then
    let '(s1, nl) := walk_children child pa (descending ty pa) (s, []) in
    let '(s2, current_node_id) :=
      add_table_node pa ty (present_rows pa) s1 in
    (add_edges current_node_id nl s2, Some current_node_id)
  else (print (out_of_bounds_message pa) s, None).

Definition no_child : Z → state → state * option string := λ _ s, (s, None).

Definition walk_PT := walk_step PT no_child.
Definition walk_PD := walk_step PD walk_PT.
Definition walk_PDPT := walk_step PDPT walk_PD.
Definition walk_PML4 := walk_step PML4 walk_PDPT.

Definition walk (ty : table_type) : Z → state → state * option string :=
  match ty with
  | PML4 => walk_PML4 | PDPT => walk_PDPT | PD => walk_PD | PT => walk_PT
  end.

(** Number of frames [traverse] needs below and including a table. *)
Definition depth (ty : table_type) : nat :=
  match ty with PML4 => 4 | PDPT => 3 | PD => 2 | PT => 1 end.

Lemma walk_ind (Φ : table_type → (Z → state → state * option string) → Prop) :
  (∀ ty child,
      (∀ ty', next_table_types ty = Some ty' → Φ ty' child) →
      Φ ty (walk_step ty child)) →
  ∀ ty, Φ ty (walk ty).
Proof.
  intros step.
  assert (HPT : Φ PT walk_PT) by (apply step; intros ? [=]).
  assert (HPD : Φ PD walk_PD) by (apply step; intros ? [= <-]; exact HPT).
  assert (HPDPT : Φ PDPT walk_PDPT)
    by (apply step; intros ? [= <-]; exact HPD).
  intros []; simpl; try done. apply step. intros ? [= <-]. exact HPDPT.
Qed.

Lemma depth_next ty ty' :
  next_table_types ty = Some ty' → depth ty = S (depth ty').
Proof. destruct ty; intros [= <-]; reflexivity. Qed.

(** *** Reading one slot *)

Lemma slot_range (i : Z) :
  i ∈ seqZ 0 PAGE_TABLE_ENTRIES ↔ 0 ≤ i < 512.
Proof. rewrite elem_of_seqZ. unfold PAGE_TABLE_ENTRIES. lia. Qed.

Lemma unpack_Q_slot (pa i : Z) :
  in_bounds pa → 0 ≤ i < 512 →
  unpack_Q (slice dump_bytes (offset_of pa + i * ENTRY_SIZE)
                             (offset_of pa + (i + 1) * ENTRY_SIZE))
  = Ok (entry_at pa i).
Proof.
  intros [H0 H1] Hi. unfold unpack_Q, ENTRY_SIZE.
  pose proof (slice_length dump_bytes (offset_of pa + i * 8)
                (offset_of pa + (i + 1) * 8)) as Hl.
  assert (length (slice dump_bytes (offset_of pa + i * 8)
                    (offset_of pa + (i + 1) * 8)) = 8%nat) as -> by lia.
  reflexivity.
Qed.

(** The loop body at slot [i] of an in-bounds table, by cases on the slot. *)
Lemma visit_entry_slot rec (pa : Z) (ty : table_type) (i : Z) (v : locals) :
  in_bounds pa → 0 ≤ i < 512 →
  visit rec (offset_of pa) ty (table_type_eqb ty PT) i v
  = if negb (Z.testbit (entry_at pa i) 0) then Ok v
    else if descends ty (entry_at pa i) then
      match next_table_types ty with
      | None => Raise KeyError
      | Some ty' =>
          '(s', r) ← rec (child_of pa i) ty' (shared v);
          Ok (Locals s' (current_table_entries_data v ++ [row_of pa i])
                     (next_level_nodes v ++ link i r))
      end
    else Ok (Locals (shared v)
                    (current_table_entries_data v ++ [row_of pa i])
                    (next_level_nodes v)).
Proof.
  intros Hb Hi. unfold visit_entry. rewrite unpack_Q_slot by done.
  cbn [mbind res_bind]. rewrite !truthy_flag. cbn [flag_bit].
  unfold descends. fold (child_of pa i). fold (row_of pa i).
  destruct (Z.testbit (entry_at pa i) 0); [|reflexivity].
  cbn [negb andb].
  destruct (negb (table_type_eqb ty PT) && negb (Z.testbit (entry_at pa i) 7));
    [|reflexivity].
  destruct (next_table_types ty); [|reflexivity].
  destruct (rec _ _ _) as [[s' [id|]]|]; cbn [mbind res_bind link];
    [|by rewrite app_nil_r|reflexivity].
  destruct (truthy_id (Some id)); [reflexivity|by rewrite app_nil_r].
Qed.

Lemma descends_next ty e :
  descends ty e = true → ∃ ty', next_table_types ty = Some ty'.
Proof. destruct ty; unfold descends; simpl; eauto. rewrite andb_false_r. done. Qed.

(** *** The loop and the whole of [traverse] *)

Lemma for_each_visit rec child (pa : Z) (ty : table_type) (l : list Z) :
  in_bounds pa →
  (∀ i, i ∈ l → 0 ≤ i < 512) →
  (∀ ty' pa' s', next_table_types ty = Some ty' →
                 rec pa' ty' s' = Ok (child pa' s')) →
  ∀ s rows nl,
    for_each (visit rec (offset_of pa) ty (table_type_eqb ty PT)) l
             (Locals s rows nl)
    = let '(s', nl') :=
        walk_children child pa
          (filter (λ i, descends ty (entry_at pa i)) l) (s, nl) in
      Ok (Locals s'
            (rows ++ (row_of pa <$>
                        filter (λ i, Z.testbit (entry_at pa i) 0) l))
            nl').
Proof.
  intros Hb Hl Hrec. induction l as [|i l IH]; intros s rows nl.
  - cbn. by rewrite app_nil_r.
  - cbn [for_each]. rewrite visit_entry_slot by (try done; apply Hl; left).
    specialize (IH (λ j Hj, Hl j (list_elem_of_further _ _ _ Hj))).
    rewrite !filter_cons.
    destruct (Z.testbit (entry_at pa i) 0) eqn:Hp; cbn [negb].
    + destruct (descends ty (entry_at pa i)) eqn:Hd.
      * destruct (descends_next _ _ Hd) as [ty' Hty']. rewrite Hty'.
        rewrite (Hrec _ _ _ Hty'). cbn [shared].
        destruct (child (child_of pa i) s) as [s' r] eqn:Hc.
        cbn [mbind res_bind shared current_table_entries_data
               next_level_nodes].
        rewrite IH. rewrite decide_True by done. rewrite decide_True by done.
        unfold walk_children at 2. cbn [foldl]. rewrite Hc.
        fold (walk_children child pa
                (filter (λ i, descends ty (entry_at pa i)) l)
                (s', nl ++ link i r)).
        destruct (walk_children _ _ _ _). rewrite fmap_cons.
        by rewrite <- app_assoc.
      * cbn [mbind res_bind shared current_table_entries_data
               next_level_nodes].
        rewrite IH. rewrite decide_False by (by intros ?).
        rewrite decide_True by done.
        destruct (walk_children _ _ _ _). rewrite fmap_cons.
        by rewrite <- app_assoc.
    + assert (descends ty (entry_at pa i) = false) as Hd
        by (unfold descends; by rewrite Hp).
      cbn [mbind res_bind]. rewrite IH, Hd.
      rewrite !decide_False by (by intros ?). reflexivity.
Qed.

Lemma traverse_body_walk_step rec child (ty : table_type) :
  (∀ ty' pa' s', next_table_types ty = Some ty' →
                 rec pa' ty' s' = Ok (child pa' s')) →
  ∀ pa s, body rec pa ty s = Ok (walk_step ty child pa s).
Proof.
  intros Hrec pa s. unfold traverse_body, walk_step.
  destruct (decide (in_bounds pa)) as [Hb|Hb].
  - rewrite (proj2 (outside_false pa) Hb).
    rewrite (for_each_visit rec child) by
      (try done; intros i; apply slot_range).
    fold (descending ty pa). fold (present_rows pa).
    destruct (walk_children _ _ _ _) as [s1 nl].
    cbn [mbind res_bind shared current_table_entries_data next_level_nodes app].
    destruct (add_table_node _ _ _ _). reflexivity.
  - rewrite (proj2 (outside_true pa) Hb). reflexivity.
Qed.

(** [traverse] is total: any budget of at least [depth ty] frames returns
    the result of [walk]. *)
Lemma traverse_walk (ty : table_type) :
  ∀ fuel, (depth ty ≤ fuel)%nat →
  ∀ pa s, trav fuel pa ty s = Ok (walk ty pa s).
Proof.
  pattern ty, (walk ty). apply walk_ind. clear ty.
  intros ty child IH [|fuel] Hfuel pa s.
  - destruct ty; simpl in Hfuel; lia.
  - cbn [traverse]. apply traverse_body_walk_step.
    intros ty' pa' s' Hty'. apply (IH _ Hty').
    rewrite (depth_next _ _ Hty') in Hfuel. lia.
Qed.

(** *** Well-formed graphs *)

Definition node_names (d : list stmt) : list string :=
  omap (λ st, match st with node n _ => Some n | edge _ _ _ => None end) d.

(** The edge comes from a present slot that is not a huge page, in a table
    inside the dump, and leads to the table that slot designates. *)
Definition edge_from_slot (t h lbl : string) : Prop :=
  ∃ pa i,
    t = node_id_of pa ∧ lbl = edge_label i ∧ in_bounds pa ∧ 0 ≤ i < 512 ∧
    Z.testbit (entry_at pa i) 0 = true ∧
    Z.testbit (entry_at pa i) 7 = false ∧
    h = node_id_of (child_of pa i) ∧ in_bounds (child_of pa i).

(** What holds of a statement when it is appended to the body [pre]. *)
Definition stmt_ok (pre : list stmt) (st : stmt) : Prop :=
  match st with
  | node n lbl =>
      (n ∉ node_names pre) ∧ n = node_id_of (label_addr lbl) ∧
      in_bounds (label_addr lbl) ∧
      label_rows lbl = present_rows (label_addr lbl)
  | edge t h lbl =>
      t ∈ node_names pre ∧ h ∈ node_names pre ∧ edge_from_slot t h lbl
  end.

Inductive dot_wf : list stmt → Prop :=
| dot_wf_nil : dot_wf []
| dot_wf_snoc d st : dot_wf d → stmt_ok d st → dot_wf (d ++ [st]).

Definition state_wf (s : state) : Prop :=
  dot_wf (dot s) ∧ ∀ id, is_Some (nodes s !! id) ↔ id ∈ node_names (dot s).

(** One step of the hierarchy the walker follows. *)
Definition points_to (x y : Z * table_type) : Prop :=
  in_bounds x.1 ∧
  ∃ i, 0 ≤ i < 512 ∧ descends x.2 (entry_at x.1 i) = true ∧
       next_table_types x.2 = Some y.2 ∧ y.1 = child_of x.1 i.

Lemma node_names_app d1 d2 :
  node_names (d1 ++ d2) = node_names d1 ++ node_names d2.
Proof. apply omap_app. Qed.

Lemma node_names_prefix d d' n :
  d `prefix_of` d' → n ∈ node_names d → n ∈ node_names d'.
Proof.
  intros [k ->] Hn. rewrite node_names_app. apply elem_of_app. by left.
Qed.

Lemma initial_state_wf : state_wf initial_state.
Proof.
  split; [constructor|]. intros id. cbn. rewrite lookup_empty.
  split; [by intros [? [=]]|by intros ?%elem_of_nil].
Qed.

Lemma node_id_nonempty pa : truthy_id (Some (node_id_of pa)) = true.
Proof. reflexivity. Qed.

(** *** Emitting nodes and edges *)

Lemma add_table_node_id pa ty rows s :
  (add_table_node pa ty rows s).2 = node_id_of pa.
Proof. unfold add_table_node. by destruct (decide _). Qed.

Lemma add_table_node_prefix pa ty rows s :
  prefix (dot s) (dot (add_table_node pa ty rows s).1) ∧
  stdout (add_table_node pa ty rows s).1 = stdout s.
Proof.
  unfold add_table_node. destruct (decide _); cbn; [done|].
  split; [by apply prefix_app_r|done].
Qed.

Lemma add_table_node_wf pa ty s :
  in_bounds pa → state_wf s →
  state_wf (add_table_node pa ty (present_rows pa) s).1 ∧
  node_id_of pa ∈ node_names (dot (add_table_node pa ty (present_rows pa) s).1).
Proof.
  intros Hb [Hd Hn]. unfold add_table_node.
  destruct (decide _) as [Hin|Hnin]; cbn.
  - split; [by split|]. by apply Hn.
  - split; [split|]; cbn.
    + constructor; [done|]. cbn. by rewrite <- Hn.
    + intros id. rewrite node_names_app, elem_of_app. cbn.
      rewrite list_elem_of_singleton, <- Hn.
      rewrite lookup_insert. case_decide; subst.
      * split; [by right|]. by eexists.
      * split; [by left|]. intros [?|?]; [done|by subst].
    + rewrite node_names_app, elem_of_app. right. cbn. by left.
Qed.

Lemma add_edges_cons t i h nl s :
  add_edges t ((i, h) :: nl) s
  = add_edges t nl (dot_edge t h (edge_label i) s).
Proof. reflexivity. Qed.

Lemma add_edges_prefix t nl s :
  prefix (dot s) (dot (add_edges t nl s)) ∧
  stdout (add_edges t nl s) = stdout s ∧
  node_names (dot (add_edges t nl s)) = node_names (dot s).
Proof.
  revert s. induction nl as [|[i h] nl IH]; intros s; [done|].
  rewrite add_edges_cons.
  destruct (IH (dot_edge t h (edge_label i) s)) as (Hp & Hs & Hn).
  split; [|split].
  - etrans; [|exact Hp]. cbn. by apply prefix_app_r.
  - by rewrite Hs.
  - rewrite Hn. cbn. rewrite node_names_app. cbn. by rewrite app_nil_r.
Qed.

Lemma add_edges_wf t nl s :
  state_wf s → t ∈ node_names (dot s) →
  (∀ i h, (i, h) ∈ nl →
          h ∈ node_names (dot s) ∧ edge_from_slot t h (edge_label i)) →
  state_wf (add_edges t nl s).
Proof.
  revert s. induction nl as [|[i h] nl IH]; intros s Hwf Ht Hnl; [done|].
  rewrite add_edges_cons. apply IH.
  - destruct Hwf as [Hd Hn]. split; cbn.
    + constructor; [done|]. cbn. destruct (Hnl i h) as [? ?]; [by left|].
      done.
    + intros id. rewrite node_names_app. cbn. rewrite app_nil_r. apply Hn.
  - cbn. rewrite node_names_app. cbn. by rewrite app_nil_r.
  - intros j k Hjk. cbn. rewrite node_names_app. cbn. rewrite app_nil_r.
    apply Hnl. by right.
Qed.

(** *** What every call of the walker guarantees *)

Definition good (ty : table_type)
    (w : Z → state → state * option string) : Prop :=
  ∀ pa s,
    prefix (dot s) (dot (w pa s).1) ∧
    prefix (stdout s) (stdout (w pa s).1) ∧
    (in_bounds pa → (w pa s).2 = Some (node_id_of pa)) ∧
    (¬ in_bounds pa →
       w pa s = (print (out_of_bounds_message pa) s, None)) ∧
    (state_wf s →
       state_wf (w pa s).1 ∧
       ∀ x, rtc points_to (pa, ty) x → in_bounds x.1 →
            node_id_of x.1 ∈ node_names (dot (w pa s).1)).

Lemma walk_children_good child (pa : Z) (ty' : table_type) (l : list Z) :
  good ty' child →
  ∀ s nl, ∃ s1 extra,
    walk_children child pa l (s, nl) = (s1, nl ++ extra) ∧
    prefix (dot s) (dot s1) ∧ prefix (stdout s) (stdout s1) ∧
    (∀ i h, (i, h) ∈ extra →
            i ∈ l ∧ h = node_id_of (child_of pa i) ∧
            in_bounds (child_of pa i)) ∧
    (state_wf s →
       state_wf s1 ∧
       ∀ i, i ∈ l →
            ∀ x, rtc points_to (child_of pa i, ty') x → in_bounds x.1 →
                 node_id_of x.1 ∈ node_names (dot s1)).
Proof.
  intros Hchild. induction l as [|i l IH]; intros s nl.
  - exists s, []. rewrite app_nil_r. do 3 (split; [done|]). split.
    + by intros ? ? ?%elem_of_nil.
    + intros Hs. split; [done|]. by intros ? ?%elem_of_nil.
  - destruct (Hchild (child_of pa i) s) as (Hp & Hq & Hin & Hout & Hwf).
    unfold walk_children. cbn [foldl].
    destruct (child (child_of pa i) s) as [s' r] eqn:Hc. cbn [fst snd] in *.
    fold (walk_children child pa l (s', nl ++ link i r)).
    destruct (IH s' (nl ++ link i r))
      as (s1 & extra & Heq & Hp1 & Hq1 & Hex & Hwf1).
    exists s1, (link i r ++ extra). rewrite Heq, app_assoc.
    split; [done|]. split; [by etrans|]. split; [by etrans|]. split.
    + intros j h [Hjh|Hjh]%elem_of_app.
      * destruct (decide (in_bounds (child_of pa i))) as [Hb|Hb].
        -- rewrite (Hin Hb) in Hjh. cbn in Hjh.
           apply list_elem_of_singleton in Hjh as [= -> ->].
           split; [by left|done].
        -- apply Hout in Hb as [= _ ->]. by apply elem_of_nil in Hjh.
      * destruct (Hex _ _ Hjh) as (? & ? & ?). split; [by right|done].
    + intros Hs. destruct (Hwf Hs) as [Hs' Hcov].
      destruct (Hwf1 Hs') as [Hs1 Hcov1]. split; [done|].
      intros j [->|Hj]%elem_of_cons x Hx Hbx.
      * eapply node_names_prefix; [exact Hp1|]. by apply Hcov.
      * by apply (Hcov1 j).
Qed.

Lemma descending_spec ty pa i :
  i ∈ descending ty pa ↔
  0 ≤ i < 512 ∧ descends ty (entry_at pa i) = true.
Proof.
  unfold descending. rewrite list_elem_of_filter, slot_range.
  rewrite Is_true_true. tauto.
Qed.

Lemma descends_bits ty e :
  descends ty e = true ↔
  Z.testbit e 0 = true ∧ ty ≠ PT ∧ Z.testbit e 7 = false.
Proof.
  unfold descends. rewrite !andb_true_iff, !negb_true_iff.
  destruct ty; cbn; intuition congruence.
Qed.

Lemma descending_leaf pa : descending PT pa = [].
Proof.
  unfold descending. induction (seqZ 0 PAGE_TABLE_ENTRIES) as [|i l IH];
    [done|].
  rewrite filter_cons, IH. unfold descends. cbn.
  by rewrite andb_false_r.
Qed.

Lemma walk_step_good ty child :
  (∀ ty', next_table_types ty = Some ty' → good ty' child) →
  good ty (walk_step ty child).
Proof.
  intros Hnext pa s. unfold walk_step.
  destruct (decide (in_bounds pa)) as [Hb|Hb]; cycle 1.
  { cbn. split; [done|]. split; [by apply prefix_app_r|].
    split; [done|]. split; [done|]. intros [Hd Hn].
    split; [by split|]. intros x Hx Hbx. exfalso.
    inversion Hx as [|? y ? Hstep]; subst; [done|].
    by destruct Hstep as [? _]. }
  assert (∃ s1 nl,
    walk_children child pa (descending ty pa) (s, []) = (s1, nl) ∧
    prefix (dot s) (dot s1) ∧ prefix (stdout s) (stdout s1) ∧
    (∀ i h, (i, h) ∈ nl →
            i ∈ descending ty pa ∧ h = node_id_of (child_of pa i) ∧
            in_bounds (child_of pa i)) ∧
    (state_wf s →
       state_wf s1 ∧
       ∀ i ty', i ∈ descending ty pa → next_table_types ty = Some ty' →
            ∀ x, rtc points_to (child_of pa i, ty') x → in_bounds x.1 →
                 node_id_of x.1 ∈ node_names (dot s1)))
    as (s1 & nl & Heq & Hp & Hq & Hnl & Hwf).
  { destruct (next_table_types ty) as [ty'|] eqn:Hty.
    - destruct (walk_children_good child pa ty' (descending ty pa)
                  (Hnext _ eq_refl) s [])
        as (s1 & nl & Heq & Hp & Hq & Hnl & Hwf).
      exists s1, nl. do 4 (split; [done|]).
      intros Hs. destruct (Hwf Hs) as [Hs1 Hcov]. split; [done|].
      intros i ? Hi [= <-]. by apply Hcov.
    - destruct ty; try discriminate. rewrite descending_leaf.
      exists s, []. do 3 (split; [done|]). split.
      + by intros ? ? ?%elem_of_nil.
      + intros Hs. split; [done|]. by intros ? ? ?%elem_of_nil. }
  rewrite Heq.
  pose proof (add_table_node_id pa ty (present_rows pa) s1) as Hid.
  pose proof (add_table_node_prefix pa ty (present_rows pa) s1) as [Hp2 Hq2].
  pose proof (add_table_node_wf pa ty s1 Hb) as Hwf2.
  destruct (add_table_node pa ty (present_rows pa) s1) as [s2 id].
  cbn [fst snd] in *. subst id.
  destruct (add_edges_prefix (node_id_of pa) nl s2) as (Hp3 & Hq3 & Hn3).
  split; [by do 2 (etrans; [eassumption|])|].
  split; [rewrite Hq3, Hq2; done|].
  split; [done|]. split; [done|].
  intros Hs. destruct (Hwf Hs) as [Hs1 Hcov].
  destruct (Hwf2 Hs1) as [Hs2 Hown].
  assert (Hmono : ∀ n, n ∈ node_names (dot s1) →
                       n ∈ node_names (dot s2)).
  { intros n. by apply node_names_prefix. }
  split.
  - apply add_edges_wf; [done..|].
    intros i h Hih. destruct (Hnl _ _ Hih) as (Hi & -> & Hbc).
    apply descending_spec in Hi as [Hi Hd].
    destruct (descends_next _ _ Hd) as [ty' Hty'].
    split.
    + apply Hmono.
      refine (Hcov i ty' _ Hty' (child_of pa i, ty') _ Hbc);
        [by apply descending_spec|apply rtc_refl].
    + apply descends_bits in Hd as (? & ? & ?).
      by exists pa, i.
  - intros x Hx Hbx. rewrite Hn3.
    inversion Hx as [|? y ? Hstep Hrest]; subst; [done|].
    destruct Hstep as [_ (i & Hi & Hd & Hty' & Hy)]. cbn in *.
    destruct y as [pa' ty']. cbn in *. subst pa'.
    apply Hmono. apply (Hcov i ty'); [by apply descending_spec|done..].
Qed.

Lemma walk_good ty : good ty (walk ty).
Proof.
  pattern ty, (walk ty). apply walk_ind. apply walk_step_good.
Qed.

(** *** Reading facts off a well-formed graph *)

Lemma dot_wf_split d pre st post :
  dot_wf d → d = pre ++ st :: post → stmt_ok pre st.
Proof.
  intros Hwf. revert pre st post.
  induction Hwf as [|d st' Hwf IH Hok]; intros pre st post Heq.
  - by destruct pre.
  - destruct post as [|x post _] using rev_ind.
    + apply app_inj_tail in Heq as [-> ->]. done.
    + rewrite app_comm_cons, app_assoc in Heq.
      apply app_inj_tail in Heq as [-> _]. by eapply IH.
Qed.

Lemma dot_wf_NoDup d : dot_wf d → NoDup (node_names d).
Proof.
  induction 1 as [|d st Hwf IH Hok]; [constructor|].
  rewrite node_names_app. destruct st as [n lbl|t h lbl]; cbn.
  - destruct Hok as [Hn _]. apply NoDup_app. split; [done|].
    split; [|apply NoDup_singleton].
    intros x Hx ->%list_elem_of_singleton. done.
  - by rewrite app_nil_r.
Qed.

Lemma dot_wf_node d n lbl :
  dot_wf d → node n lbl ∈ d →
  n = node_id_of (label_addr lbl) ∧ in_bounds (label_addr lbl) ∧
  label_rows lbl = present_rows (label_addr lbl).
Proof.
  intros Hwf (pre & post & ->)%list_elem_of_split.
  by destruct (dot_wf_split _ _ _ _ Hwf eq_refl) as (_ & ? & ? & ?).
Qed.

Lemma node_names_elem d n : n ∈ node_names d ↔ ∃ lbl, node n lbl ∈ d.
Proof.
  unfold node_names. rewrite list_elem_of_omap. split.
  - intros ([m lbl|] & Hin & [= <-]). by exists lbl.
  - intros [lbl Hin]. by exists (node n lbl).
Qed.

Lemma filter_absent (l : list string) (n : string) :
  n ∉ l → filter (λ x, x = n) l = [].
Proof.
  induction l as [|x l IH]; [done|]. intros Hn.
  rewrite filter_cons_False; [apply IH|]; set_solver.
Qed.

Lemma NoDup_count (l : list string) (n : string) :
  NoDup l → n ∈ l → length (filter (λ x, x = n) l) = 1%nat.
Proof.
  induction 1 as [|x l Hx Hnd IH]; intros Hn; [by apply elem_of_nil in Hn|].
  rewrite filter_cons. destruct (decide (x = n)) as [->|Hne].
  - by rewrite filter_absent.
  - apply IH. by apply elem_of_cons in Hn as [->|?].
Qed.

Lemma NoDup_count_le (l : list string) (n : string) :
  NoDup l → (length (filter (λ x, x = n) l) ≤ 1)%nat.
Proof.
  intros Hnd. destruct (decide (n ∈ l)) as [Hin|Hnin].
  - by rewrite NoDup_count.
  - rewrite filter_absent by done. cbn. lia.
Qed.

(** *** The whole run *)

Definition walk_outcome (pml4_offset_in_dump : Z) : outcome :=
  let s := (walk PML4 (dump_base_phys_addr + pml4_offset_in_dump)
                 initial_state).1 in
  Outcome (dot s) (stdout s).

Lemma parse_total (fuel : nat) (pml4_offset_in_dump : Z) :
  (4 ≤ fuel)%nat →
  parse_paging_structure_fuel fuel dump_bytes dump_base_phys_addr
    pml4_offset_in_dump
  = Ok (walk_outcome pml4_offset_in_dump).
Proof.
  intros Hfuel. unfold parse_paging_structure_fuel, walk_outcome.
  rewrite (traverse_walk PML4) by done.
  cbn [mbind res_bind]. by destruct (walk PML4 _ _).
Qed.

Lemma walk_outcome_wf (pml4_offset_in_dump : Z) :
  dot_wf (graph (walk_outcome pml4_offset_in_dump)).
Proof.
  unfold walk_outcome. cbn.
  destruct (walk_good PML4 (dump_base_phys_addr + pml4_offset_in_dump)
              initial_state) as (_ & _ & _ & _ & Hwf).
  by destruct (Hwf initial_state_wf) as [[? _] _].
Qed.

Lemma walk_outcome_covers (pml4_offset_in_dump : Z) (x : Z * table_type) :
  rtc points_to (dump_base_phys_addr + pml4_offset_in_dump, PML4) x →
  in_bounds x.1 →
  node_id_of x.1 ∈ node_names (graph (walk_outcome pml4_offset_in_dump)).
Proof.
  unfold walk_outcome. cbn.
  destruct (walk_good PML4 (dump_base_phys_addr + pml4_offset_in_dump)
              initial_state) as (_ & _ & _ & _ & Hwf).
  destruct (Hwf initial_state_wf) as [_ Hcov]. apply Hcov.
Qed.

(** *** Slots are little-endian 64-bit words *)

(** Byte of the dump at position [pos]. *)
Definition byte_at (pos : Z) : Z :=
  from_option byte_val 0 (dump_bytes !! Z.to_nat pos).

(** The unsigned integer whose eight bytes, least significant first, start
    at position [pos] of the dump. *)
Definition le_uint64_at (pos : Z) : Z :=
  byte_at pos + 2 ^ 8 * byte_at (pos + 1) + 2 ^ 16 * byte_at (pos + 2)
  + 2 ^ 24 * byte_at (pos + 3) + 2 ^ 32 * byte_at (pos + 4)
  + 2 ^ 40 * byte_at (pos + 5) + 2 ^ 48 * byte_at (pos + 6)
  + 2 ^ 56 * byte_at (pos + 7).

Lemma byte_val_range (b : byte) : 0 ≤ byte_val b < 256.
Proof.
  unfold byte_val. pose proof (Byte.to_N_bounded b) as H. lia.
Qed.

Lemma byte_at_range (pos : Z) : 0 ≤ byte_at pos < 256.
Proof.
  unfold byte_at. destruct (dump_bytes !! Z.to_nat pos); cbn;
    [apply byte_val_range|lia].
Qed.

Lemma take_drop_8 (n : nat) :
  (n + 8 ≤ length dump_bytes)%nat →
  ∃ b0 b1 b2 b3 b4 b5 b6 b7,
    take 8 (drop n dump_bytes) = [b0; b1; b2; b3; b4; b5; b6; b7] ∧
    dump_bytes !! n = Some b0 ∧ dump_bytes !! (n + 1)%nat = Some b1 ∧
    dump_bytes !! (n + 2)%nat = Some b2 ∧
    dump_bytes !! (n + 3)%nat = Some b3 ∧
    dump_bytes !! (n + 4)%nat = Some b4 ∧
    dump_bytes !! (n + 5)%nat = Some b5 ∧
    dump_bytes !! (n + 6)%nat = Some b6 ∧
    dump_bytes !! (n + 7)%nat = Some b7.
Proof.
  intros Hn.
  assert (Hk : ∀ k, (k < 8)%nat → is_Some (dump_bytes !! (n + k)%nat))
    by (intros k Hk; apply lookup_lt_is_Some; lia).
  destruct (Hk 0%nat) as [b0 H0]; [lia|].
  destruct (Hk 1%nat) as [b1 H1]; [lia|].
  destruct (Hk 2%nat) as [b2 H2]; [lia|].
  destruct (Hk 3%nat) as [b3 H3]; [lia|].
  destruct (Hk 4%nat) as [b4 H4]; [lia|].
  destruct (Hk 5%nat) as [b5 H5]; [lia|].
  destruct (Hk 6%nat) as [b6 H6]; [lia|].
  destruct (Hk 7%nat) as [b7 H7]; [lia|].
  rewrite Nat.add_0_r in H0.
  exists b0, b1, b2, b3, b4, b5, b6, b7. split; [|done].
  apply list_eq. intros k. rewrite lookup_take, lookup_drop.
  case_decide as Hlt; cycle 1.
  { symmetry. apply lookup_ge_None. cbn. lia. }
  do 8 (destruct k as [|k]; [by rewrite ?Nat.add_0_r|]). lia.
Qed.

Lemma entry_at_le (pa i : Z) :
  in_bounds pa → 0 ≤ i < 512 →
  entry_at pa i = le_uint64_at (offset_of pa + 8 * i).
Proof.
  intros [H0 H1] Hi. unfold entry_at, ENTRY_SIZE.
  rewrite slice_inside by lia.
  replace (offset_of pa + (i + 1) * 8 - (offset_of pa + i * 8)) with 8 by lia.
  change (Z.to_nat 8) with 8%nat.
  replace (offset_of pa + i * 8) with (offset_of pa + 8 * i) by lia.
  set (pos := offset_of pa + 8 * i).
  destruct (take_drop_8 (Z.to_nat pos))
    as (b0 & b1 & b2 & b3 & b4 & b5 & b6 & b7 & -> & E0 & E1 & E2 & E3 & E4
        & E5 & E6 & E7); [lia|].
  unfold le_uint64_at, byte_at.
  replace (Z.to_nat (pos + 1)) with (Z.to_nat pos + 1)%nat by lia.
  replace (Z.to_nat (pos + 2)) with (Z.to_nat pos + 2)%nat by lia.
  replace (Z.to_nat (pos + 3)) with (Z.to_nat pos + 3)%nat by lia.
  replace (Z.to_nat (pos + 4)) with (Z.to_nat pos + 4)%nat by lia.
  replace (Z.to_nat (pos + 5)) with (Z.to_nat pos + 5)%nat by lia.
  replace (Z.to_nat (pos + 6)) with (Z.to_nat pos + 6)%nat by lia.
  replace (Z.to_nat (pos + 7)) with (Z.to_nat pos + 7)%nat by lia.
  rewrite E0, E1, E2, E3, E4, E5, E6, E7. cbn [from_option le_value foldr].
  lia.
Qed.

Lemma le_uint64_at_range (pos : Z) : 0 ≤ le_uint64_at pos < 2 ^ 64.
Proof.
  unfold le_uint64_at.
  pose proof (byte_at_range pos). pose proof (byte_at_range (pos + 1)).
  pose proof (byte_at_range (pos + 2)). pose proof (byte_at_range (pos + 3)).
  pose proof (byte_at_range (pos + 4)). pose proof (byte_at_range (pos + 5)).
  pose proof (byte_at_range (pos + 6)). pose proof (byte_at_range (pos + 7)).
  lia.
Qed.

End walker.

(** * The properties of the specification *)

(** ** Flag decoder *)

Lemma flag_name_inj (f g : flag) : flag_name f = flag_name g → f = g.
Proof. destruct f, g; cbn; intros [=]; reflexivity. Qed.

(** C7. For every integer [v] (in particular every 64-bit value) the decoder
    returns the names of exactly those of the nine flags whose bit is set in
    [v], joined in the order of the table: a tag is in the output iff its bit
    (Present 0, Read/Write 1, User/Supervisor 2, Write-Through 3,
    Cache-Disable 4, Accessed 5, Dirty 6, Page-Size 7, Global 8) is 1, each
    independently of the others. *)
Theorem decode_flags_bits (v : Z) :
  decode_flags v
  = join ", " (flag_name <$> filter (λ f, Z.testbit v (flag_bit f)) FLAG_MASKS)
  ∧ (∀ f, flag_name f ∈ decode_flags_list v ↔ Z.testbit v (flag_bit f) = true)
  ∧ decode_flags_list v `sublist_of` (flag_name <$> FLAG_MASKS)
  ∧ (λ f, (flag_name f, flag_mask f)) <$> FLAG_MASKS
    = [("P", 2 ^ 0); ("R/W", 2 ^ 1); ("U/S", 2 ^ 2); ("PWT", 2 ^ 3);
       ("PCD", 2 ^ 4); ("A", 2 ^ 5); ("D", 2 ^ 6); ("PS", 2 ^ 7);
       ("G", 2 ^ 8)].
Proof.
  split; [|split; [|split]].
  - unfold decode_flags. by rewrite decode_flags_list_filter.
  - intros f. rewrite decode_flags_list_filter, list_elem_of_fmap.
    split.
    + intros (g & Hfg & Hg). apply flag_name_inj in Hfg as ->.
      apply list_elem_of_filter in Hg as [Hg _]. by apply Is_true_true.
    + intros Hf. exists f. split; [done|]. apply list_elem_of_filter.
      split; [by apply Is_true_true|]. unfold FLAG_MASKS.
      destruct f; set_solver.
  - rewrite decode_flags_list_filter. apply fmap_sublist, sublist_filter.
  - reflexivity.
Qed.

(** ** The root table *)

(** C10. When the top-level table does not fit in the dump (its offset is
    negative, or fewer than 4096 bytes follow it), the run still returns: the
    graph has no node and no edge, and the only effect is the line reporting
    the address. *)
Theorem root_out_of_bounds (dump_bytes : list byte)
    (dump_base_phys_addr pml4_offset_in_dump : Z) :
  pml4_offset_in_dump < 0
  ∨ pml4_offset_in_dump + 4096 > Z.of_nat (length dump_bytes) →
  parse_paging_structure dump_bytes dump_base_phys_addr pml4_offset_in_dump
  = Ok (Outcome []
          [out_of_bounds_message (dump_base_phys_addr + pml4_offset_in_dump)]).
Proof.
  intros Hout. unfold parse_paging_structure.
  rewrite parse_total by done. unfold walk_outcome. cbn [walk].
  unfold walk_PML4, walk_step.
  rewrite decide_False; [reflexivity|].
  unfold in_bounds, get_dump_offset. lia.
Qed.

Lemma root_out_of_bounds_witness :
  parse_paging_structure (replicate 100 x00) 4096 0
  = Ok (Outcome [] [out_of_bounds_message (4096 + 0)]).
Proof. apply root_out_of_bounds. right. cbn. lia. Defined.

(** ** Dumps used as concrete inputs *)

Definition zeros (n : nat) : list byte := replicate n x00.

(** One table whose slot 0 is present and designates address 0. *)
Definition dump_self : list byte := x01 :: zeros 4095.

(** Two tables: slots 0 and 1 of the table at 0 both designate the table at
    0x1000, whose slot 0 designates 0x100000, far outside the dump. *)
Definition dump_shared : list byte :=
  [x01; x10; x00; x00; x00; x00; x00; x00;
   x01; x10; x00; x00; x00; x00; x00; x00] ++ zeros 4080 ++
  [x01; x00; x10; x00; x00; x00; x00; x00] ++ zeros 4088.

(** Three tables in a chain 0 → 0x1000 → 0x2000, the last one designating
    itself in slot 0. *)
Definition dump_cycle : list byte :=
  [x01; x10; x00; x00; x00; x00; x00; x00] ++ zeros 4088 ++
  [x01; x20; x00; x00; x00; x00; x00; x00] ++ zeros 4088 ++
  [x01; x20; x00; x00; x00; x00; x00; x00] ++ zeros 4088.

(** ** Rows of a table *)

Lemma rows_ext (dump_bytes : list byte) (dump_base_phys_addr pa : Z)
    (l : list Z) :
  in_bounds dump_bytes dump_base_phys_addr pa →
  (∀ i, i ∈ l → 0 ≤ i < 512) →
  row_of dump_bytes dump_base_phys_addr pa <$>
    filter (λ i, Z.testbit (entry_at dump_bytes dump_base_phys_addr pa i) 0) l
  = (λ i, (i,
           Z.land (le_uint64_at dump_bytes (pa - dump_base_phys_addr + 8 * i))
                  0x000FFFFFFFFFF000,
           decode_flags
             (le_uint64_at dump_bytes (pa - dump_base_phys_addr + 8 * i)))) <$>
    filter (λ i, Z.testbit
                   (le_uint64_at dump_bytes
                      (pa - dump_base_phys_addr + 8 * i)) 0) l.
Proof.
  intros Hb.
  assert (Hw : ∀ i, 0 ≤ i < 512 →
    le_uint64_at dump_bytes (pa - dump_base_phys_addr + 8 * i)
    = entry_at dump_bytes dump_base_phys_addr pa i).
  { intros i Hi. symmetry. by apply entry_at_le. }
  induction l as [|i l IH]; intros Hl; [done|].
  specialize (IH (λ j Hj, Hl j (list_elem_of_further _ _ _ Hj))).
  rewrite !filter_cons, (Hw i) by (apply Hl; left).
  destruct (decide _); [|done].
  rewrite !fmap_cons, IH, (Hw i) by (apply Hl; left). reflexivity.
Qed.

(** ** Edges *)


(** C8. In the graph of any run, at the position where an edge is recorded
    both its tail and its head already occur as nodes of the part recorded
    before it; the edge is labelled with a slot of the tail's table that is
    present and is not a huge page, and its head is the table that slot
    designates.  So an edge whose tail and label name a slot that is not
    present, or that has the Page-Size bit, never occurs. *)
Theorem edges_between_existing_nodes (dump_bytes : list byte)
    (dump_base_phys_addr pml4_offset_in_dump : Z) :
  ∃ o,
    parse_paging_structure dump_bytes dump_base_phys_addr pml4_offset_in_dump
    = Ok o ∧
    (∀ pre t h l post, graph o = pre ++ edge t h l :: post →
       t ∈ node_names pre ∧ h ∈ node_names pre ∧
       edge_from_slot dump_bytes dump_base_phys_addr t h l) ∧
    (∀ pa i h, edge (node_id_of pa) h (edge_label i) ∈ graph o →
       0 ≤ i < 512 ∧
       Z.testbit (entry_at dump_bytes dump_base_phys_addr pa i) 0 = true ∧
       Z.testbit (entry_at dump_bytes dump_base_phys_addr pa i) 7 = false ∧
       h = node_id_of
             (get_next_table_addr
                (entry_at dump_bytes dump_base_phys_addr pa i))).
Proof.
  eexists. split; [by apply parse_total|].
  pose proof (walk_outcome_wf dump_bytes dump_base_phys_addr
                pml4_offset_in_dump) as Hwf.
  split.
  - intros pre t h l post Heq.
    exact (dot_wf_split _ _ _ _ _ _ Hwf Heq).
  - intros pa i h (pre & post & Heq)%list_elem_of_split.
    destruct (dot_wf_split _ _ _ _ _ _ Hwf Heq)
      as (_ & _ & pa' & i' & Ht & Hl & _ & Hi & Hp & Hh & -> & _).
    apply node_id_of_inj in Ht as <-. apply edge_label_inj in Hl as <-.
    done.
Qed.

(** ** Tables outside the dump *)




(** ** The rule that decides whether a slot is descended through *)

(** The loop body at slot [i] of a table inside the dump, whatever the
    recursive call [rec] is:
    - a slot whose Present bit is unset leaves everything as it was: no row,
      no call of [rec], no pending edge;
    - a present slot of a leaf table, or one with the Page-Size bit, adds its
      row and nothing else: [rec] is not called, the shared state and the
      pending edges are unchanged;
    - a present slot without the Page-Size bit in a table that is not a leaf
      adds its row and calls [rec] once, on the address in the slot and the
      next level; an edge is pending iff that call returned an identifier.
    A leaf table as a whole only ever adds its own node. *)
Lemma visit_entry_cases (dump_bytes : list byte) (dump_base_phys_addr : Z)
    (rec : Z → table_type → state → res (state * option string))
    (pa : Z) (ty : table_type) (i : Z) (v : locals) :
  in_bounds dump_bytes dump_base_phys_addr pa → 0 ≤ i < 512 →
  let e := entry_at dump_bytes dump_base_phys_addr pa i in
  let step :=
    visit_entry dump_bytes rec (get_dump_offset dump_base_phys_addr pa) ty
      (table_type_eqb ty PT) i v in
  let rows :=
    current_table_entries_data v
    ++ [(i, get_next_table_addr e, decode_flags e)] in
  (Z.testbit e 0 = false → step = Ok v) ∧
  (Z.testbit e 0 = true → ty = PT ∨ Z.testbit e 7 = true →
     step = Ok (Locals (shared v) rows (next_level_nodes v))) ∧
  (Z.testbit e 0 = true → ty ≠ PT → Z.testbit e 7 = false →
     ∃ ty', next_table_types ty = Some ty' ∧
       step = '(s', r) ← rec (get_next_table_addr e) ty' (shared v);
              Ok (Locals s' rows (next_level_nodes v ++ link i r))) ∧
  (∀ fuel s,
     traverse dump_bytes dump_base_phys_addr (S fuel) pa PT s
     = Ok ((add_table_node pa PT
              (present_rows dump_bytes dump_base_phys_addr pa) s).1,
           Some (node_id_of pa))).
Proof.
  intros Hb Hi e step rows. subst step.
  rewrite visit_entry_slot by done. fold e.
  split; [|split; [|split]].
  - intros ->. reflexivity.
  - intros Hp Hterm. rewrite Hp. cbn [negb].
    replace (descends ty e) with false; [reflexivity|].
    symmetry. apply not_true_iff_false. rewrite descends_bits.
    intros (_ & Hty & Hps). destruct Hterm; congruence.
  - intros Hp Hty Hps. rewrite Hp. cbn [negb].
    assert (Hd : descends ty e = true) by (by apply descends_bits).
    rewrite Hd. destruct (descends_next _ _ Hd) as [ty' Hty'].
    exists ty'. split; [done|]. by rewrite Hty'.
  - intros fuel s. rewrite (traverse_walk _ _ PT) by (cbn; lia).
    cbn [walk]. unfold walk_PT, walk_step.
    rewrite decide_True by done. rewrite descending_leaf.
    cbn [walk_children foldl].
    pose proof (add_table_node_id pa PT
                  (present_rows dump_bytes dump_base_phys_addr pa) s) as Hid.
    destruct (add_table_node _ _ _ _) as [s2 id]. cbn [fst snd] in *.
    by subst id.
Qed.

(** ** Termination, and cycles *)

Definition count_nodes (n : string) (d : list stmt) : nat :=
  length (filter (λ x, x = n) (node_names d)).

(** C3. Every run terminates: four frames of recursion are enough whatever
    the dump, the base address and the offset of the top-level table are, and
    a larger budget changes nothing.  No graph has two nodes for one
    address; and when a Middle-Lower table that the walk reaches has a
    present slot designating the table itself, the graph has exactly one node
    for its address. *)
Theorem walk_terminates (dump_bytes : list byte)
    (dump_base_phys_addr pml4_offset_in_dump : Z) :
  ∃ o,
    (∀ fuel, (4 ≤ fuel)%nat →
       parse_paging_structure_fuel fuel dump_bytes dump_base_phys_addr
         pml4_offset_in_dump = Ok o) ∧
    (∀ pa, (count_nodes (node_id_of pa) (graph o) ≤ 1)%nat) ∧
    (∀ pa i,
       rtc (points_to dump_bytes dump_base_phys_addr)
           (dump_base_phys_addr + pml4_offset_in_dump, PML4) (pa, PD) →
       in_bounds dump_bytes dump_base_phys_addr pa →
       0 ≤ i < 512 →
       Z.testbit (entry_at dump_bytes dump_base_phys_addr pa i) 0 = true →
       get_next_table_addr (entry_at dump_bytes dump_base_phys_addr pa i) = pa →
       count_nodes (node_id_of pa) (graph o) = 1%nat).
Proof.
  exists (walk_outcome dump_bytes dump_base_phys_addr pml4_offset_in_dump).
  pose proof (dot_wf_NoDup _ _ _
                (walk_outcome_wf dump_bytes dump_base_phys_addr
                   pml4_offset_in_dump)) as Hnd.
  split; [|split].
  - intros fuel Hfuel. by apply parse_total.
  - intros pa. by apply NoDup_count_le.
  - intros pa i Hreach Hb _ _ _. apply NoDup_count; [done|].
    by apply (walk_outcome_covers _ _ _ (pa, PD)).
Qed.

Lemma walk_terminates_witness :
  ∃ o, parse_paging_structure dump_cycle 0 0 = Ok o
       ∧ count_nodes (node_id_of 0x2000) (graph o) = 1%nat.
Proof.
  destruct (walk_terminates dump_cycle 0 0) as (o & Hfuel & _ & Hcycle).
  exists o. split; [apply Hfuel; lia|].
  apply (Hcycle 0x2000 0).
  - eapply rtc_l with (0x1000, PDPT).
    { split; [compute_done|]. exists 0.
      split; [lia|]. split; [vm_compute; reflexivity|].
      split; [reflexivity|vm_compute; reflexivity]. }
    eapply rtc_l with (0x2000, PD); [|apply rtc_refl].
    split; [compute_done|]. exists 0.
    split; [lia|]. split; [vm_compute; reflexivity|].
    split; [reflexivity|vm_compute; reflexivity].
  - compute_done.
  - lia.
  - vm_compute. reflexivity.
  - vm_compute. reflexivity.
Defined.

(** ** The set of emitted nodes *)

Section visited.

Variable dump_bytes : list byte.
Variable dump_base_phys_addr : Z.

(** A walker never removes an identifier from [nodes]. *)
Definition keeps_nodes (w : Z → state → state * option string) : Prop :=
  ∀ pa s id, is_Some (nodes s !! id) → is_Some (nodes (w pa s).1 !! id).

Lemma add_table_node_keeps pa ty rows s id :
  is_Some (nodes s !! id) →
  is_Some (nodes (add_table_node pa ty rows s).1 !! id).
Proof.
  intros Hid. unfold add_table_node. destruct (decide _); cbn; [done|].
  rewrite lookup_insert. by case_decide.
Qed.

Lemma add_edges_nodes t nl s :
  nodes (add_edges t nl s) = nodes s.
Proof.
  revert s. induction nl as [|[i h] nl IH]; intros s; [done|].
  rewrite add_edges_cons, IH. reflexivity.
Qed.

Lemma walk_children_keeps child pa l :
  keeps_nodes child →
  ∀ acc id, is_Some (nodes acc.1 !! id) →
    is_Some (nodes (walk_children dump_bytes dump_base_phys_addr
                      child pa l acc).1 !! id).
Proof.
  intros Hchild. induction l as [|i l IH]; intros [s nl] id Hid; [done|].
  unfold walk_children. cbn [foldl].
  pose proof (Hchild (child_of dump_bytes dump_base_phys_addr pa i) s id Hid)
    as Hid'.
  destruct (child _ s) as [s' r]. by apply IH.
Qed.

Lemma walk_keeps ty : keeps_nodes (walk dump_bytes dump_base_phys_addr ty).
Proof.
  pattern ty, (walk dump_bytes dump_base_phys_addr ty).
  apply walk_ind. clear ty. intros ty child IH pa s id Hid.
  unfold walk_step. destruct (decide _); [|done].
  assert (Hc : is_Some (nodes (walk_children dump_bytes dump_base_phys_addr
                  child pa (descending dump_bytes dump_base_phys_addr ty pa)
                  (s, [])).1 !! id)).
  { destruct (next_table_types ty) as [ty'|] eqn:Hty.
    - apply walk_children_keeps; [by apply (IH ty')|done].
    - destruct ty; try discriminate. by rewrite descending_leaf. }
  destruct (walk_children _ _ _ _ _ _) as [s1 nl]. cbn [fst] in Hc.
  pose proof (add_table_node_keeps pa ty
    (present_rows dump_bytes dump_base_phys_addr pa) s1 id Hc) as Hn.
  destruct (add_table_node _ _ _ _) as [s2 nid]. cbn [fst] in *.
  by rewrite add_edges_nodes.
Qed.

(** A later visit of a table whose node was already emitted: the loop over
    its 512 slots is run again, then only the edges are added. *)
Lemma traverse_revisit (fuel : nat) (ty : table_type) (pa : Z) (s : state) :
  (depth ty ≤ fuel)%nat →
  in_bounds dump_bytes dump_base_phys_addr pa →
  is_Some (nodes s !! node_id_of pa) →
  ∃ s1 nl,
    for_each (visit_entry dump_bytes
                (traverse dump_bytes dump_base_phys_addr (pred fuel))
                (get_dump_offset dump_base_phys_addr pa) ty
                (table_type_eqb ty PT))
             (seqZ 0 PAGE_TABLE_ENTRIES) (Locals s [] [])
    = Ok (Locals s1 (present_rows dump_bytes dump_base_phys_addr pa) nl) ∧
    traverse dump_bytes dump_base_phys_addr fuel pa ty s
    = Ok (add_edges (node_id_of pa) nl s1, Some (node_id_of pa)).
Proof.
  intros Hfuel Hb Hid. destruct fuel as [|fuel]; [destruct ty; cbn in *; lia|].
  cbn [pred traverse]. unfold traverse_body.
  rewrite (proj2 (outside_false _ _ _) Hb).
  set (child := λ pa' s',
    match next_table_types ty with
    | Some ty' => walk dump_bytes dump_base_phys_addr ty' pa' s'
    | None => (s', None)
    end).
  assert (Hrec : ∀ ty' pa' s', next_table_types ty = Some ty' →
    traverse dump_bytes dump_base_phys_addr fuel pa' ty' s'
    = Ok (child pa' s')).
  { intros ty' pa' s' Hty'. unfold child. rewrite Hty'.
    apply traverse_walk. rewrite (depth_next _ _ Hty') in Hfuel. lia. }
  rewrite (for_each_visit dump_bytes dump_base_phys_addr _ child)
    by (try done; intros i; apply slot_range).
  assert (Hkeep : keeps_nodes child).
  { intros pa' s' id Hin. unfold child.
    destruct (next_table_types ty); [by apply walk_keeps|done]. }
  pose proof (walk_children_keeps child pa
    (filter (λ i, descends ty (entry_at dump_bytes dump_base_phys_addr pa i))
            (seqZ 0 PAGE_TABLE_ENTRIES))
    Hkeep (s, []) _ Hid) as Hid1.
  destruct (walk_children _ _ _ _ _ _) as [s1 nl]. cbn [fst] in Hid1.
  exists s1, nl. split; [reflexivity|].
  cbn [mbind res_bind shared current_table_entries_data next_level_nodes app].
  unfold add_table_node. rewrite decide_True by done. reflexivity.
Qed.

End visited.

(** Counterexample to C2 as stated.  In [dump_shared] the table at 0x1000 is
    designated twice.  After its first visit its identifier is in [nodes];
    the second visit nevertheless reads the table again and descends again
    into its only slot, as the second report of the same out-of-bounds
    address shows; in the whole run the table has one node but was decoded
    twice. *)
Lemma revisit_decodes_again :
  ∃ s1 s2,
    traverse dump_shared 0 3 0x1000 PDPT initial_state
    = Ok (s1, Some (node_id_of 0x1000)) ∧
    is_Some (nodes s1 !! node_id_of 0x1000) ∧
    traverse dump_shared 0 3 0x1000 PDPT s1
    = Ok (s2, Some (node_id_of 0x1000)) ∧
    stdout s1 = [out_of_bounds_message 0x100000] ∧
    stdout s2 = [out_of_bounds_message 0x100000;
                 out_of_bounds_message 0x100000] ∧
    parse_paging_structure dump_shared 0 0
    = Ok (Outcome
            [node "table_4096" (Label PDPT 4096 [(0, 1048576, "P")]);
             node "table_0" (Label PML4 0 [(0, 4096, "P"); (1, 4096, "P")]);
             edge "table_0" "table_4096" "[0]";
             edge "table_0" "table_4096" "[1]"]
            [out_of_bounds_message 0x100000;
             out_of_bounds_message 0x100000]).
Proof.
  eexists. eexists.
  split; [vm_compute; reflexivity|].
  split; [compute_done|].
  split; [vm_compute; reflexivity|].
  split; [vm_compute; reflexivity|].
  split; vm_compute; reflexivity.
Qed.

(** C2, amended.  The set [nodes] is consulted when a node is about to be
    emitted: if the identifier of the address is already there it is returned
    and nothing changes, so emitting is idempotent and no graph has two nodes
    with one identifier.  The test comes after the table has been read: a
    later visit of an emitted table runs the loop over its 512 slots again
    (descending again through them) and then adds its edges again, without a
    second node. *)
Theorem node_emitted_once (dump_bytes : list byte) (dump_base_phys_addr : Z) :
  (∀ pa ty rows s,
     is_Some (nodes s !! node_id_of pa) →
     add_table_node pa ty rows s = (s, node_id_of pa)) ∧
  (∀ pa ty rows ty' rows' s,
     add_table_node pa ty' rows' (add_table_node pa ty rows s).1
     = ((add_table_node pa ty rows s).1, (add_table_node pa ty rows s).2)) ∧
  (∀ pml4_offset_in_dump, ∃ o,
     parse_paging_structure dump_bytes dump_base_phys_addr pml4_offset_in_dump
     = Ok o ∧ NoDup (node_names (graph o))) ∧
  (∀ fuel ty pa s,
     (depth ty ≤ fuel)%nat →
     in_bounds dump_bytes dump_base_phys_addr pa →
     is_Some (nodes s !! node_id_of pa) →
     ∃ s1 nl,
       for_each (visit_entry dump_bytes
                   (traverse dump_bytes dump_base_phys_addr (pred fuel))
                   (get_dump_offset dump_base_phys_addr pa) ty
                   (table_type_eqb ty PT))
                (seqZ 0 PAGE_TABLE_ENTRIES) (Locals s [] [])
       = Ok (Locals s1 (present_rows dump_bytes dump_base_phys_addr pa) nl) ∧
       traverse dump_bytes dump_base_phys_addr fuel pa ty s
       = Ok (add_edges (node_id_of pa) nl s1, Some (node_id_of pa))).
Proof.
  assert (Hhit : ∀ pa ty rows s,
     is_Some (nodes s !! node_id_of pa) →
     add_table_node pa ty rows s = (s, node_id_of pa)).
  { intros pa ty rows s Hin. unfold add_table_node.
    by rewrite decide_True by done. }
  split; [done|]. split; [|split].
  - intros pa ty rows ty' rows' s. rewrite Hhit.
    + by rewrite add_table_node_id.
    + unfold add_table_node. destruct (decide _) as [Hin|Hnin]; cbn; [done|].
      rewrite lookup_insert_eq. by eexists.
  - intros off. eexists. split; [by apply parse_total|].
    eapply dot_wf_NoDup, walk_outcome_wf.
  - apply traverse_revisit.
Qed.

Lemma node_emitted_once_witness :
  ∃ s1 nl,
    for_each (visit_entry dump_shared (traverse dump_shared 0 (pred 3))
                (get_dump_offset 0 0x1000) PDPT (table_type_eqb PDPT PT))
             (seqZ 0 PAGE_TABLE_ENTRIES)
             (Locals (State {[node_id_of 0x1000 := true]} [] []) [] [])
    = Ok (Locals s1 (present_rows dump_shared 0 0x1000) nl) ∧
    traverse dump_shared 0 3 0x1000 PDPT
      (State {[node_id_of 0x1000 := true]} [] [])
    = Ok (add_edges (node_id_of 0x1000) nl s1, Some (node_id_of 0x1000)).
Proof.
  apply (proj2 (proj2 (proj2 (node_emitted_once dump_shared 0)))).
  - cbn. lia.
  - compute_done.
  - compute_done.
Defined.

(** ** One node per address *)

Lemma node_label_unique (d : list stmt) (n : string) (l1 l2 : html_label) :
  NoDup (node_names d) → node n l1 ∈ d → node n l2 ∈ d → l1 = l2.
Proof.
  induction d as [|st d IH]; intros Hnd H1 H2; [by apply elem_of_nil in H1|].
  destruct st as [m lbl|t h l]; cbn in Hnd.
  - apply NoDup_cons in Hnd as [Hm Hnd].
    apply elem_of_cons in H1 as [E1|H1];
      apply elem_of_cons in H2 as [E2|H2].
    + congruence.
    + injection E1 as -> ->. exfalso. apply Hm, node_names_elem. by eexists.
    + injection E2 as -> ->. exfalso. apply Hm, node_names_elem. by eexists.
    + by apply IH.
  - apply elem_of_cons in H1 as [[=]|H1].
    apply elem_of_cons in H2 as [[=]|H2]. by apply IH.
Qed.

Lemma dump_self_reaches (ty : table_type) :
  rtc (points_to dump_self 0) (0, PML4) (0, ty).
Proof.
  assert (Hstep : ∀ ty ty', next_table_types ty = Some ty' →
            points_to dump_self 0 (0, ty) (0, ty')).
  { intros t t' Hty. split; [compute_done|]. exists 0.
    split; [lia|]. split; [by destruct t|]. split; [done|].
    vm_compute. reflexivity. }
  assert (HPDPT : rtc (points_to dump_self 0) (0, PML4) (0, PDPT)).
  { eapply rtc_l; [by apply (Hstep PML4 PDPT)|]. apply rtc_refl. }
  assert (HPD : rtc (points_to dump_self 0) (0, PML4) (0, PD)).
  { eapply rtc_r; [exact HPDPT|]. by apply Hstep. }
  destruct ty; [apply rtc_refl|done|done|].
  eapply rtc_r; [exact HPD|]. by apply Hstep.
Qed.

(** Counterexample to C9 as stated.  In [dump_self] the walk reaches address
    0 as a Middle-Lower table and as a Leaf table (and at the two levels
    above), yet the graph has a single node. *)
Lemma same_address_two_levels_one_node :
  rtc (points_to dump_self 0) (0, PML4) (0, PD) ∧
  rtc (points_to dump_self 0) (0, PML4) (0, PT) ∧
  PD ≠ PT ∧
  ∃ o, parse_paging_structure dump_self 0 0 = Ok o ∧
       node_names (graph o) = [node_id_of 0].
Proof.
  split; [apply dump_self_reaches|]. split; [apply dump_self_reaches|].
  split; [done|]. eexists. split; vm_compute; reflexivity.
Qed.

(** C9, amended.  Nodes are keyed by the physical address of the table
    alone.  Two nodes of a graph for the same address are one and the same
    node, with one label; and an address inside the dump that the walk
    reaches, at one level or at several, has exactly one node. *)
Theorem nodes_keyed_by_address (dump_bytes : list byte)
    (dump_base_phys_addr pml4_offset_in_dump : Z) :
  ∃ o,
    parse_paging_structure dump_bytes dump_base_phys_addr pml4_offset_in_dump
    = Ok o ∧
    (∀ n1 l1 n2 l2,
       node n1 l1 ∈ graph o → node n2 l2 ∈ graph o →
       label_addr l1 = label_addr l2 → n1 = n2 ∧ l1 = l2) ∧
    (∀ pa ty1 ty2,
       rtc (points_to dump_bytes dump_base_phys_addr)
           (dump_base_phys_addr + pml4_offset_in_dump, PML4) (pa, ty1) →
       rtc (points_to dump_bytes dump_base_phys_addr)
           (dump_base_phys_addr + pml4_offset_in_dump, PML4) (pa, ty2) →
       in_bounds dump_bytes dump_base_phys_addr pa →
       count_nodes (node_id_of pa) (graph o) = 1%nat).
Proof.
  eexists. split; [by apply parse_total|].
  pose proof (walk_outcome_wf dump_bytes dump_base_phys_addr
                pml4_offset_in_dump) as Hwf.
  pose proof (dot_wf_NoDup _ _ _ Hwf) as Hnd.
  split.
  - intros n1 l1 n2 l2 H1 H2 Haddr.
    destruct (dot_wf_node _ _ _ _ _ Hwf H1) as (-> & _ & _).
    destruct (dot_wf_node _ _ _ _ _ Hwf H2) as (-> & _ & _).
    rewrite Haddr in *. split; [done|].
    by eapply node_label_unique.
  - intros pa ty1 ty2 H1 _ Hb. apply NoDup_count; [done|].
    by apply (walk_outcome_covers _ _ _ (pa, ty1)).
Qed.

Lemma nodes_keyed_by_address_witness :
  ∃ o, parse_paging_structure dump_self 0 0 = Ok o
       ∧ count_nodes (node_id_of 0) (graph o) = 1%nat.
Proof.
  destruct (nodes_keyed_by_address dump_self 0 0) as (o & Ho & _ & Hone).
  exists o. split; [done|].
  apply (Hone 0 PD PT); [apply dump_self_reaches..|compute_done].
Defined.

(** ** The self-referential dump *)

Definition graph_edges (d : list stmt) : list (string * string * string) :=
  omap (λ st, match st with
              | edge t h l => Some (t, h, l)
              | node _ _ => None
              end) d.

(** Counterexample to C5 as stated.  On the 4096-byte dump whose only
    non-zero byte is the first, with base 0 and the top-level table at offset
    0, the graph has one node and three edges, not one: each of the three
    upper levels adds its own edge from the node to itself. *)
Lemma self_referential_dump_three_edges :
  parse_paging_structure dump_self 0 0
  = Ok (Outcome
          [node "table_0" (Label PT 0 [(0, 0, "P")]);
           edge "table_0" "table_0" "[0]";
           edge "table_0" "table_0" "[0]";
           edge "table_0" "table_0" "[0]"] []) ∧
  ∃ o, parse_paging_structure dump_self 0 0 = Ok o ∧
       length (node_names (graph o)) = 1%nat ∧
       length (graph_edges (graph o)) = 3%nat ∧
       length (graph_edges (graph o)) ≠ 1%nat.
Proof.
  split; [vm_compute; reflexivity|].
  eexists. split; [vm_compute; reflexivity|].
  split; [reflexivity|]. split; [reflexivity|]. cbn. lia.
Qed.

Lemma filter_ext_elem {T} (Φ Ψ : T → Prop) `{!∀ x, Decision (Φ x)}
    `{!∀ x, Decision (Ψ x)} (l : list T) :
  (∀ x, x ∈ l → Φ x ↔ Ψ x) → filter Φ l = filter Ψ l.
Proof.
  induction l as [|x l IH]; intros Hl; [done|].
  rewrite !filter_cons, IH by (intros y Hy; apply Hl; by right).
  destruct (decide (Φ x)) as [HP|HP], (decide (Ψ x)) as [HQ|HQ]; try done;
    exfalso; apply (Hl x (list_elem_of_here _ _)) in HP || apply HP;
    try done; by apply (Hl x (list_elem_of_here _ _)).
Qed.

Section self_referential.

(** Any number [extra] of zero bytes may follow the table. *)
Variable extra : nat.

Definition dump_self_padded : list byte := x01 :: zeros (4095 + extra).

Lemma in_bounds_self : in_bounds dump_self_padded 0 0.
Proof.
  unfold in_bounds, get_dump_offset, dump_self_padded, zeros.
  cbn [length]. rewrite length_replicate. lia.
Qed.

Lemma byte_at_self (pos : Z) :
  0 ≤ pos → byte_at dump_self_padded pos = if pos =? 0 then 1 else 0.
Proof.
  intros Hpos. unfold byte_at, dump_self_padded, zeros.
  destruct (Z.eqb_spec pos 0) as [->|Hne]; [reflexivity|].
  destruct (Z.to_nat pos) as [|k] eqn:Hk; [lia|]. cbn [lookup list_lookup].
  change ((x01 :: replicate (4095 + extra) x00) !! S k)
    with (replicate (4095 + extra) x00 !! k).
  destruct (replicate (4095 + extra) x00 !! k) as [b|] eqn:Hb; [|done].
  apply lookup_replicate in Hb as [-> _]. reflexivity.
Qed.

Lemma entry_at_self (i : Z) :
  0 ≤ i < 512 → entry_at dump_self_padded 0 0 i = if i =? 0 then 1 else 0.
Proof.
  intros Hi. rewrite entry_at_le by (try done; apply in_bounds_self).
  unfold le_uint64_at, get_dump_offset. rewrite !byte_at_self by lia.
  destruct (Z.eqb_spec i 0) as [->|Hne]; [reflexivity|].
  repeat match goal with
         | |- context [?a =? 0] =>
             destruct (Z.eqb_spec a 0); [lia|]
         end.
  reflexivity.
Qed.

Lemma present_rows_self : present_rows dump_self_padded 0 0 = [(0, 0, "P")].
Proof.
  unfold present_rows.
  rewrite (filter_ext_elem _ (λ i, Z.testbit (if i =? 0 then 1 else 0) 0)).
  - change (filter _ (seqZ 0 PAGE_TABLE_ENTRIES)) with [0].
    cbn [fmap list_fmap]. unfold row_of. rewrite entry_at_self by lia.
    reflexivity.
  - intros i Hi%slot_range. by rewrite entry_at_self.
Qed.

Lemma descending_self (ty : table_type) :
  descending dump_self_padded 0 ty 0 = if table_type_eqb ty PT then [] else [0].
Proof.
  unfold descending.
  rewrite (filter_ext_elem _ (λ i, descends ty (if i =? 0 then 1 else 0))).
  - destruct ty; vm_compute; reflexivity.
  - intros i Hi%slot_range. by rewrite entry_at_self.
Qed.

(** One level of the walk of this dump, in closed form. *)
Definition self_step (ty : table_type)
    (child : state → state * option string) (s : state)
    : state * option string :=
  let '(s1, nl) :=
    if table_type_eqb ty PT then (s, [])
    else let '(s', r) := child s in (s', link 0 r) in
  let '(s2, id) := add_table_node 0 ty [(0, 0, "P")] s1 in
  (add_edges id nl s2, Some id).

Lemma self_step_ext ty c1 c2 s :
  (∀ s, c1 s = c2 s) → self_step ty c1 s = self_step ty c2 s.
Proof. intros H. unfold self_step. by rewrite H. Qed.

Lemma walk_step_self ty child s :
  walk_step dump_self_padded 0 ty child 0 s = self_step ty (child 0) s.
Proof.
  unfold walk_step, self_step.
  rewrite decide_True by apply in_bounds_self.
  rewrite descending_self, present_rows_self.
  destruct (table_type_eqb ty PT); [reflexivity|].
  unfold walk_children. cbn [foldl]. unfold child_of.
  rewrite entry_at_self by lia.
  change (get_next_table_addr (if 0 =? 0 then 1 else 0)) with 0.
  destruct (child 0 s) as [s' r]. reflexivity.
Qed.

Lemma walk_self :
  walk dump_self_padded 0 PML4 0 initial_state
  = self_step PML4 (self_step PDPT (self_step PD
      (self_step PT (no_child 0)))) initial_state.
Proof.
  cbn [walk]. unfold walk_PML4. rewrite walk_step_self.
  apply self_step_ext. intros s1. unfold walk_PDPT. rewrite walk_step_self.
  apply self_step_ext. intros s2. unfold walk_PD. rewrite walk_step_self.
  apply self_step_ext. intros s3. unfold walk_PT. apply walk_step_self.
Qed.

End self_referential.

(** C5, amended.  For the dump of zero bytes whose first byte is 0x01,
    however long beyond 4096 bytes, with base 0 and the top-level table at
    offset 0, the graph has exactly one node, carrying the one present row of
    slot 0, and exactly three edges, each from that node to itself with label
    0; nothing is printed. *)
Theorem self_referential_dump (extra : nat) :
  parse_paging_structure (dump_self_padded extra) 0 0
  = Ok (Outcome
          [node "table_0" (Label PT 0 [(0, 0, "P")]);
           edge "table_0" "table_0" "[0]";
           edge "table_0" "table_0" "[0]";
           edge "table_0" "table_0" "[0]"] []).
Proof.
  unfold parse_paging_structure. rewrite parse_total by done.
  unfold walk_outcome. change (0 + 0) with 0. rewrite walk_self.
  vm_compute. reflexivity.
Qed.

(** * Further properties of the walker *)

(** ** What a run adds to the graph and prints, exactly *)

Section exact_graph.

Variable dump_bytes : list byte.
Variable dump_base_phys_addr : Z.

Abbreviation inb := (in_bounds dump_bytes dump_base_phys_addr).
Abbreviation slot := (entry_at dump_bytes dump_base_phys_addr).
Abbreviation target := (child_of dump_bytes dump_base_phys_addr).
Abbreviation step := (points_to dump_bytes dump_base_phys_addr).

(** The edge statements issued by the last loop of [traverse]. *)
Definition edges_of (t : string) (nl : list (Z * string)) : list stmt :=
  (λ '(i, h), edge t h (edge_label i)) <$> nl.

(** The pending edges a table collects from a list of its slots: one for each
    slot whose table lies inside the dump. *)
Definition links (pa : Z) (l : list Z) : list (Z * string) :=
  (λ i, (i, node_id_of (target pa i))) <$> filter (λ i, inb (target pa i)) l.

(** A statement added while walking from [x] concerns a table the walk
    reaches from [x], at a level at which it reaches it. *)
Definition sound_stmt (x : Z * table_type) (st : stmt) : Prop :=
  match st with
  | node n lbl =>
      n = node_id_of (label_addr lbl) ∧ inb (label_addr lbl) ∧
      rtc step x (label_addr lbl, label_type lbl)
  | edge t h l =>
      ∃ y i, rtc step x y ∧ inb y.1 ∧ 0 ≤ i < 512 ∧
             descends y.2 (slot y.1 i) = true ∧ inb (target y.1 i) ∧
             t = node_id_of y.1 ∧ h = node_id_of (target y.1 i) ∧
             l = edge_label i
  end.

Definition sound_line (x : Z * table_type) (line : string) : Prop :=
  ∃ y, rtc step x y ∧ ¬ inb y.1 ∧ line = out_of_bounds_message y.1.

(** What a visit of [y] leaves behind: the report if [y] is outside the
    dump, and otherwise an edge for each slot descended through into a table
    inside the dump. *)
Definition visit_done (y : Z * table_type) (added : list stmt)
    (lines : list string) : Prop :=
  (¬ inb y.1 → out_of_bounds_message y.1 ∈ lines) ∧
  (∀ i, inb y.1 → 0 ≤ i < 512 → descends y.2 (slot y.1 i) = true →
        inb (target y.1 i) →
        edge (node_id_of y.1) (node_id_of (target y.1 i)) (edge_label i)
        ∈ added).

Definition exact (ty : table_type)
    (w : Z → state → state * option string) : Prop :=
  ∀ pa s, ∃ added lines,
    dot (w pa s).1 = dot s ++ added ∧
    stdout (w pa s).1 = stdout s ++ lines ∧
    Forall (sound_stmt (pa, ty)) added ∧
    Forall (sound_line (pa, ty)) lines ∧
    ∀ y, rtc step (pa, ty) y → visit_done y added lines.

Lemma sound_stmt_lift x y st :
  rtc step x y → sound_stmt y st → sound_stmt x st.
Proof.
  intros Hxy. destruct st as [n lbl|t h l]; cbn.
  - intros (? & ? & ?). split; [done|]. split; [done|]. by etrans.
  - intros (z & i & Hz & Hrest). exists z, i. split; [by etrans|done].
Qed.

Lemma sound_line_lift x y line :
  rtc step x y → sound_line y line → sound_line x line.
Proof.
  intros Hxy (z & Hz & Hrest). exists z. split; [by etrans|done].
Qed.

Lemma visit_done_mono y added lines added' lines' :
  (∀ st, st ∈ added → st ∈ added') →
  (∀ ln, ln ∈ lines → ln ∈ lines') →
  visit_done y added lines → visit_done y added' lines'.
Proof.
  intros Ha Hl [H1 H2]. split.
  - intros Hb. by apply Hl, H1.
  - intros i ? ? ? ?. by apply Ha, H2.
Qed.

Lemma add_edges_dot t nl s :
  dot (add_edges t nl s) = dot s ++ edges_of t nl.
Proof.
  revert s. induction nl as [|[i h] nl IH]; intros s.
  - cbn. by rewrite app_nil_r.
  - rewrite add_edges_cons, IH. cbn. by rewrite <- app_assoc.
Qed.

Lemma add_table_node_dot pa ty rows s :
  dot (add_table_node pa ty rows s).1
  = dot s ++ (if decide (is_Some (nodes s !! node_id_of pa)) then []
              else [node (node_id_of pa) (Label ty pa rows)]).
Proof.
  unfold add_table_node. destruct (decide _); cbn; [by rewrite app_nil_r|done].
Qed.

Lemma descends_step pa ty ty' i :
  inb pa → 0 ≤ i < 512 → descends ty (slot pa i) = true →
  next_table_types ty = Some ty' →
  step (pa, ty) (target pa i, ty').
Proof. intros Hb Hi Hd Hty. split; [done|]. by exists i. Qed.

Lemma walk_children_exact child (pa : Z) (ty ty' : table_type) (l : list Z) :
  next_table_types ty = Some ty' → inb pa →
  good dump_bytes dump_base_phys_addr ty' child → exact ty' child →
  (∀ i, i ∈ l → 0 ≤ i < 512 ∧ descends ty (slot pa i) = true) →
  ∀ s nl, ∃ s1 added lines,
    walk_children dump_bytes dump_base_phys_addr child pa l (s, nl)
    = (s1, nl ++ links pa l) ∧
    dot s1 = dot s ++ added ∧ stdout s1 = stdout s ++ lines ∧
    Forall (sound_stmt (pa, ty)) added ∧
    Forall (sound_line (pa, ty)) lines ∧
    ∀ i, i ∈ l → ∀ y, rtc step (target pa i, ty') y →
                      visit_done y added lines.
Proof.
  intros Hty Hb Hgood Hexact. induction l as [|i l IH]; intros Hl s nl.
  - exists s, [], []. rewrite !app_nil_r. do 5 (split; [done|]).
    by intros ? ?%elem_of_nil.
  - destruct (Hl i) as [Hi Hd]; [by left|].
    pose proof (descends_step pa ty ty' i Hb Hi Hd Hty) as Hstep.
    destruct (Hgood (target pa i) s) as (_ & _ & Hin & Hout & _).
    destruct (Hexact (target pa i) s)
      as (added1 & lines1 & Hd1 & Hs1 & Hsa1 & Hsl1 & Hdone1).
    unfold walk_children. cbn [foldl]. fold (target pa i).
    destruct (child (target pa i) s) as [s' r] eqn:Hc. cbn [fst snd] in *.
    fold (walk_children dump_bytes dump_base_phys_addr child pa l
            (s', nl ++ link i r)).
    destruct (IH (λ j Hj, Hl j (list_elem_of_further _ _ _ Hj)) s'
                (nl ++ link i r))
      as (s1 & added2 & lines2 & Heq & Hd2 & Hs2 & Hsa2 & Hsl2 & Hdone2).
    exists s1, (added1 ++ added2), (lines1 ++ lines2).
    split.
    { rewrite Heq. f_equal. rewrite <- app_assoc. f_equal.
      unfold links. rewrite filter_cons.
      destruct (decide (inb (target pa i))) as [Hbc|Hbc].
      - rewrite (Hin Hbc). by rewrite fmap_cons.
      - by apply Hout in Hbc as [= _ ->]. }
    split; [by rewrite Hd2, Hd1, app_assoc|].
    split; [by rewrite Hs2, Hs1, app_assoc|].
    split.
    { apply Forall_app. split; [|done].
      eapply Forall_impl; [exact Hsa1|]. intros st.
      apply sound_stmt_lift. by apply rtc_once. }
    split.
    { apply Forall_app. split; [|done].
      eapply Forall_impl; [exact Hsl1|]. intros ln.
      apply sound_line_lift. by apply rtc_once. }
    intros j [->|Hj]%elem_of_cons y Hy.
    + eapply visit_done_mono; [| |by apply Hdone1].
      * intros st Hst. apply elem_of_app. by left.
      * intros ln Hln. apply elem_of_app. by left.
    + eapply visit_done_mono; [| |by apply (Hdone2 j)].
      * intros st Hst. apply elem_of_app. by right.
      * intros ln Hln. apply elem_of_app. by right.
Qed.

Lemma links_spec pa l i h :
  (i, h) ∈ links pa l ↔ i ∈ l ∧ inb (target pa i) ∧ h = node_id_of (target pa i).
Proof.
  unfold links. rewrite list_elem_of_fmap. split.
  - intros (j & [= -> ->] & [Hb Hj]%list_elem_of_filter). done.
  - intros (Hi & Hb & ->). exists i. split; [done|].
    by apply list_elem_of_filter.
Qed.

Lemma edges_of_spec t nl st :
  st ∈ edges_of t nl ↔ ∃ i h, (i, h) ∈ nl ∧ st = edge t h (edge_label i).
Proof.
  unfold edges_of. rewrite list_elem_of_fmap. split.
  - intros ([i h] & -> & Hin). by exists i, h.
  - intros (i & h & Hin & ->). by exists (i, h).
Qed.

Lemma walk_step_exact ty child :
  (∀ ty', next_table_types ty = Some ty' →
          good dump_bytes dump_base_phys_addr ty' child ∧ exact ty' child) →
  exact ty (walk_step dump_bytes dump_base_phys_addr ty child).
Proof.
  intros Hnext pa s. unfold walk_step.
  destruct (decide (inb pa)) as [Hb|Hb]; cycle 1.
  { exists [], [out_of_bounds_message pa]. cbn. rewrite app_nil_r.
    do 2 (split; [done|]). split; [constructor|]. split.
    - constructor; [|constructor]. by exists (pa, ty).
    - intros y Hy.
      assert (y = (pa, ty)) as ->.
      { inversion Hy as [|? z ? Hstep]; subst; [done|].
        by destruct Hstep as [? _]. }
      split; [intros _; by left|]. by intros i ?. }
  assert (∃ s1 added lines,
    walk_children dump_bytes dump_base_phys_addr child pa
      (descending dump_bytes dump_base_phys_addr ty pa) (s, [])
    = (s1, links pa (descending dump_bytes dump_base_phys_addr ty pa)) ∧
    dot s1 = dot s ++ added ∧ stdout s1 = stdout s ++ lines ∧
    Forall (sound_stmt (pa, ty)) added ∧
    Forall (sound_line (pa, ty)) lines ∧
    ∀ i ty', i ∈ descending dump_bytes dump_base_phys_addr ty pa →
             next_table_types ty = Some ty' →
             ∀ y, rtc step (target pa i, ty') y → visit_done y added lines)
    as (s1 & added & lines & Heq & Hd1 & Hs1 & Hsa & Hsl & Hdone).
  { destruct (next_table_types ty) as [ty'|] eqn:Hty.
    - destruct (Hnext ty' eq_refl) as [Hgood Hexact].
      destruct (walk_children_exact child pa ty ty'
                  (descending dump_bytes dump_base_phys_addr ty pa)
                  Hty Hb Hgood Hexact) with (s := s) (nl := @nil (Z * string))
        as (s1 & added & lines & Heq & Hrest).
      { intros i. apply descending_spec. }
      exists s1, added, lines. split; [done|].
      destruct Hrest as (? & ? & ? & ? & Hdone). do 4 (split; [done|]).
      intros i ? Hi [= <-]. by apply Hdone.
    - destruct ty; try discriminate. rewrite descending_leaf.
      exists s, [], []. rewrite !app_nil_r. do 5 (split; [done|]).
      by intros ? ? ?%elem_of_nil. }
  rewrite Heq.
  pose proof (add_table_node_id pa ty
    (present_rows dump_bytes dump_base_phys_addr pa) s1) as Hid.
  pose proof (add_table_node_dot pa ty
    (present_rows dump_bytes dump_base_phys_addr pa) s1) as Hd2.
  pose proof (add_table_node_prefix pa ty
    (present_rows dump_bytes dump_base_phys_addr pa) s1) as [_ Hs2].
  destruct (add_table_node pa ty _ s1) as [s2 id]. cbn [fst snd] in *.
  subst id.
  set (nl := links pa (descending dump_bytes dump_base_phys_addr ty pa)).
  set (own := if decide (is_Some (nodes s1 !! node_id_of pa)) then []
              else [node (node_id_of pa)
                      (Label ty pa
                         (present_rows dump_bytes dump_base_phys_addr pa))])
    in Hd2.
  exists (added ++ own ++ edges_of (node_id_of pa) nl), lines.
  split.
  { rewrite add_edges_dot, Hd2, Hd1. by rewrite <- !app_assoc. }
  split.
  { destruct (add_edges_prefix (node_id_of pa) nl s2) as (_ & -> & _).
    by rewrite Hs2. }
  split.
  { apply Forall_app. split; [done|]. apply Forall_app. split.
    - unfold own. destruct (decide _); constructor; [|constructor].
      cbn. split; [done|]. split; [done|]. apply rtc_refl.
    - apply Forall_forall. intros st (i & h & Hih & ->)%edges_of_spec.
      apply links_spec in Hih as ([Hi Hd]%descending_spec & Hbc & ->).
      exists (pa, ty), i. split; [apply rtc_refl|done]. }
  split; [done|].
  intros y Hy. inversion Hy as [|? z ? Hstep Hrest]; subst.
  - split; [done|]. cbn [fst snd]. intros i _ Hi Hd Hbc.
    apply elem_of_app. right. apply elem_of_app. right.
    apply edges_of_spec. exists i, (node_id_of (target pa i)).
    split; [|done]. apply links_spec. split; [|done].
    by apply descending_spec.
  - destruct Hstep as [_ (i & Hi & Hd & Hty' & Hz)]. destruct z as [c ty'].
    cbn [fst snd] in *. subst c.
    eapply visit_done_mono; [| |apply (Hdone i ty'); try done].
    + intros st Hst. apply elem_of_app. by left.
    + done.
    + by apply descending_spec.
Qed.

Lemma walk_exact ty :
  exact ty (walk dump_bytes dump_base_phys_addr ty).
Proof.
  enough (good dump_bytes dump_base_phys_addr ty
            (walk dump_bytes dump_base_phys_addr ty)
          ∧ exact ty (walk dump_bytes dump_base_phys_addr ty)) by tauto.
  pattern ty, (walk dump_bytes dump_base_phys_addr ty).
  apply walk_ind. clear ty. intros ty child IH. split.
  - apply walk_step_good. intros ty' Hty'. by apply IH.
  - by apply walk_step_exact.
Qed.

(** The outcome of a run, from the root table at level PML4. *)
Lemma walk_outcome_exact (pml4_offset_in_dump : Z) :
  let root := (dump_base_phys_addr + pml4_offset_in_dump, PML4) in
  let o := walk_outcome dump_bytes dump_base_phys_addr pml4_offset_in_dump in
  Forall (sound_stmt root) (graph o) ∧
  Forall (sound_line root) (printed o) ∧
  ∀ y, rtc step root y → visit_done y (graph o) (printed o).
Proof.
  intros root o. subst root o. unfold walk_outcome. cbn [graph printed].
  destruct (walk_exact PML4 (dump_base_phys_addr + pml4_offset_in_dump)
              initial_state) as (added & lines & -> & -> & H).
  exact H.
Qed.

End exact_graph.

(** ** One call of the walker, and the rule for descending *)

Section calls.

Variable dump_bytes : list byte.
Variable dump_base_phys_addr : Z.

Abbreviation inside := (in_bounds dump_bytes dump_base_phys_addr).
Abbreviation slot_value := (entry_at dump_bytes dump_base_phys_addr).
Abbreviation walker := (traverse dump_bytes dump_base_phys_addr).
Abbreviation reaches := (rtc (points_to dump_bytes dump_base_phys_addr)).

(** Slot [i] of the table at [pa], read directly off the dump: the 8-byte
    little-endian unsigned integer at offset [8 * i] of the table. *)
Definition slot_word (pa i : Z) : Z :=
  le_uint64_at dump_bytes (pa - dump_base_phys_addr + 8 * i).

(** The rows of the table at [pa], in words of the dump's bytes: the present
    slots in increasing order, each as (slot index, word masked to bits 12 to
    51, decoded flags). *)
Definition little_endian_rows (pa : Z) : list row :=
  (λ i, (i, Z.land (slot_word pa i) 0x000FFFFFFFFFF000,
         decode_flags (slot_word pa i)))
    <$> filter (λ i, Z.testbit (slot_word pa i) 0) (seqZ 0 PAGE_TABLE_ENTRIES).

Lemma present_rows_little_endian (pa : Z) :
  inside pa →
  present_rows dump_bytes dump_base_phys_addr pa = little_endian_rows pa.
Proof.
  intros Hb. unfold present_rows, little_endian_rows, slot_word.
  apply rows_ext; [done|]. intros i. apply slot_range.
Qed.

Lemma present_rows_elem (pa i a : Z) (f : string) :
  (i, a, f) ∈ present_rows dump_bytes dump_base_phys_addr pa ↔
  0 ≤ i < 512 ∧ Z.testbit (slot_value pa i) 0 = true ∧
  a = get_next_table_addr (slot_value pa i) ∧
  f = decode_flags (slot_value pa i).
Proof.
  unfold present_rows. rewrite list_elem_of_fmap. split.
  - intros (j & Heq & [Hp Hj]%list_elem_of_filter).
    unfold row_of in Heq. injection Heq as -> -> ->.
    apply slot_range in Hj. apply Is_true_true in Hp. done.
  - intros (Hi & Hp & -> & ->). exists i. split; [done|].
    apply list_elem_of_filter. split; [by apply Is_true_true|].
    by apply slot_range.
Qed.

Lemma pending_elem (pa : Z) (ty : table_type) (i : Z) (h : string) :
  (i, h) ∈ links dump_bytes dump_base_phys_addr pa
             (descending dump_bytes dump_base_phys_addr ty pa) ↔
  0 ≤ i < 512 ∧ Z.testbit (slot_value pa i) 0 = true ∧ ty ≠ PT ∧
  Z.testbit (slot_value pa i) 7 = false ∧
  inside (get_next_table_addr (slot_value pa i)) ∧
  h = node_id_of (get_next_table_addr (slot_value pa i)).
Proof.
  rewrite links_spec, descending_spec, descends_bits. unfold child_of.
  tauto.
Qed.

(** A call of [traverse] on a table inside the dump.  The loop over the 512
    slots, run with [traverse] itself as the recursive call, collects the
    rows of the present slots and one pending edge for each slot descended
    through whose table is inside the dump; the node is then added with these
    rows, and the pending edges are issued. *)
Lemma traverse_call (fuel : nat) (pa : Z) (ty : table_type) (s : state) :
  inside pa → (depth ty ≤ S fuel)%nat →
  ∃ s1,
    for_each (visit_entry dump_bytes (walker fuel)
                (get_dump_offset dump_base_phys_addr pa) ty
                (table_type_eqb ty PT))
             (seqZ 0 PAGE_TABLE_ENTRIES) (Locals s [] [])
    = Ok (Locals s1 (present_rows dump_bytes dump_base_phys_addr pa)
            (links dump_bytes dump_base_phys_addr pa
               (descending dump_bytes dump_base_phys_addr ty pa))) ∧
    walker (S fuel) pa ty s
    = Ok (add_edges (node_id_of pa)
            (links dump_bytes dump_base_phys_addr pa
               (descending dump_bytes dump_base_phys_addr ty pa))
            (add_table_node pa ty
               (present_rows dump_bytes dump_base_phys_addr pa) s1).1,
          Some (node_id_of pa)) ∧
    (ty = PT → s1 = s).
Proof.
  intros Hb Hfuel.
  assert (∃ child s1,
    (∀ ty' pa' s', next_table_types ty = Some ty' →
       walker fuel pa' ty' s' = Ok (child pa' s')) ∧
    walk_children dump_bytes dump_base_phys_addr child pa
      (descending dump_bytes dump_base_phys_addr ty pa) (s, [])
    = (s1, links dump_bytes dump_base_phys_addr pa
             (descending dump_bytes dump_base_phys_addr ty pa)) ∧
    (ty = PT → s1 = s)) as (child & s1 & Hrec & Heq & Hleaf).
  { destruct (next_table_types ty) as [ty'|] eqn:Hty.
    - exists (walk dump_bytes dump_base_phys_addr ty').
      destruct (walk_children_exact dump_bytes dump_base_phys_addr
                  (walk dump_bytes dump_base_phys_addr ty') pa ty ty'
                  (descending dump_bytes dump_base_phys_addr ty pa)
                  Hty Hb (walk_good _ _ ty') (walk_exact _ _ ty'))
        with (s := s) (nl := @nil (Z * string))
        as (s1 & added & lines & Heq & _).
      { intros i. apply descending_spec. }
      exists s1. split; [|split; [done|]].
      + intros ty'' pa' s' [= <-]. apply traverse_walk.
        rewrite (depth_next _ _ Hty) in Hfuel. lia.
      + intros ->. discriminate.
    - destruct ty; try discriminate. rewrite descending_leaf.
      exists (λ _ s', (s', None)), s. split; [|done].
      intros ty' pa' s' [=]. }
  exists s1.
  assert (Hloop :
    for_each (visit_entry dump_bytes (walker fuel)
                (get_dump_offset dump_base_phys_addr pa) ty
                (table_type_eqb ty PT))
             (seqZ 0 PAGE_TABLE_ENTRIES) (Locals s [] [])
    = Ok (Locals s1 (present_rows dump_bytes dump_base_phys_addr pa)
            (links dump_bytes dump_base_phys_addr pa
               (descending dump_bytes dump_base_phys_addr ty pa)))).
  { rewrite (for_each_visit dump_bytes dump_base_phys_addr _ child)
      by (try done; intros i; apply slot_range).
    fold (descending dump_bytes dump_base_phys_addr ty pa).
    rewrite Heq. reflexivity. }
  split; [exact Hloop|]. split; [|exact Hleaf].
  cbn [traverse]. unfold traverse_body.
  rewrite (proj2 (outside_false _ _ _) Hb), Hloop.
  cbn [mbind res_bind shared current_table_entries_data next_level_nodes].
  pose proof (add_table_node_id pa ty
                (present_rows dump_bytes dump_base_phys_addr pa) s1) as Hid.
  destruct (add_table_node _ _ _ _) as [s2 id]. cbn [fst snd] in *.
  by subst id.
Qed.

(** A call of [traverse] on a table inside the dump, from a well-formed
    state, leaves the node of that table in the graph, with the rows of the
    table. *)
Lemma traverse_emits (fuel : nat) (pa : Z) (ty : table_type) (s : state) :
  inside pa → (depth ty ≤ fuel)%nat →
  state_wf dump_bytes dump_base_phys_addr s →
  ∃ s' lbl,
    walker fuel pa ty s = Ok (s', Some (node_id_of pa)) ∧
    state_wf dump_bytes dump_base_phys_addr s' ∧
    node (node_id_of pa) lbl ∈ dot s' ∧ label_addr lbl = pa ∧
    label_rows lbl = present_rows dump_bytes dump_base_phys_addr pa.
Proof.
  intros Hb Hfuel Hwf.
  destruct (walk_good dump_bytes dump_base_phys_addr ty pa s)
    as (_ & _ & Hin & _ & Hgood).
  destruct (Hgood Hwf) as [Hwf' Hcov].
  pose proof (Hcov (pa, ty) (rtc_refl _ _) Hb) as Hn. cbn [fst] in Hn.
  apply node_names_elem in Hn as [lbl Hl].
  destruct (dot_wf_node _ _ _ _ _ (proj1 Hwf') Hl) as (Hid & _ & Hrows).
  apply node_id_of_inj in Hid.
  exists (walk dump_bytes dump_base_phys_addr ty pa s).1, lbl.
  split.
  { rewrite traverse_walk by done. rewrite <- (Hin Hb).
    by destruct (walk _ _ _ _ _). }
  split; [done|]. split; [done|]. split; [done|]. by rewrite Hrows, <- Hid.
Qed.

(** C1. The rule by which the walker descends, for a table inside the dump.
    - One slot.  In the loop of [traverse], whose recursive call is
      [traverse] itself: a slot with the Present bit unset leaves everything
      as it was (no row, no recursion); a present slot of a leaf table, or
      one with the Page-Size bit, adds its row and nothing else (no
      recursion, no pending edge); a present slot without the Page-Size bit
      in a table that is not a leaf adds its row and recurses once, into the
      table the slot designates at the next level, an edge being pending iff
      that call returned an identifier.
    - One call.  [traverse] runs this loop over the 512 slots and then adds
      the node of the table with the collected rows and issues the pending
      edges.  The rows are exactly the present slots; the pending edges are
      exactly the slots that are present, without the Page-Size bit, in a
      table that is not a leaf, and whose table is inside the dump; a leaf
      table recursed into nothing.  From a well-formed state the node of the
      table is in the resulting graph with these rows.
    - The whole run.  Every table inside the dump that the walk reaches has a
      node whose rows are exactly its present slots.  For a slot the rule
      descends through, the designated table has a node and the edge
      labelled with the slot index leads to it, if it is inside the dump,
      and is reported otherwise.  An edge leaving the table with the label
      of slot [i] exists only if slot [i] is present without the Page-Size
      bit, and a table reached at the leaf level only has no outgoing
      edge. *)
Theorem recursion_rule :
  (∀ fuel pa ty i v, inside pa → 0 ≤ i < 512 →
     let e := slot_value pa i in
     let step :=
       visit_entry dump_bytes (walker fuel)
         (get_dump_offset dump_base_phys_addr pa) ty
         (table_type_eqb ty PT) i v in
     let rows :=
       current_table_entries_data v
       ++ [(i, get_next_table_addr e, decode_flags e)] in
     (Z.testbit e 0 = false → step = Ok v) ∧
     (Z.testbit e 0 = true → ty = PT ∨ Z.testbit e 7 = true →
        step = Ok (Locals (shared v) rows (next_level_nodes v))) ∧
     (Z.testbit e 0 = true → ty ≠ PT → Z.testbit e 7 = false →
        ∃ ty', next_table_types ty = Some ty' ∧
          step = '(s', r) ← walker fuel (get_next_table_addr e) ty' (shared v);
                 Ok (Locals s' rows (next_level_nodes v ++ link i r)))) ∧
  (∀ fuel pa ty s, inside pa → (depth ty ≤ S fuel)%nat →
     ∃ s1 rows pending,
       for_each (visit_entry dump_bytes (walker fuel)
                   (get_dump_offset dump_base_phys_addr pa) ty
                   (table_type_eqb ty PT))
                (seqZ 0 PAGE_TABLE_ENTRIES) (Locals s [] [])
       = Ok (Locals s1 rows pending) ∧
       walker (S fuel) pa ty s
       = Ok (add_edges (node_id_of pa) pending
               (add_table_node pa ty rows s1).1,
             Some (node_id_of pa)) ∧
       (∀ i a f,
          (i, a, f) ∈ rows ↔
          0 ≤ i < 512 ∧ Z.testbit (slot_value pa i) 0 = true ∧
          a = get_next_table_addr (slot_value pa i) ∧
          f = decode_flags (slot_value pa i)) ∧
       (∀ i h,
          (i, h) ∈ pending ↔
          0 ≤ i < 512 ∧ Z.testbit (slot_value pa i) 0 = true ∧ ty ≠ PT ∧
          Z.testbit (slot_value pa i) 7 = false ∧
          inside (get_next_table_addr (slot_value pa i)) ∧
          h = node_id_of (get_next_table_addr (slot_value pa i))) ∧
       (ty = PT → s1 = s) ∧
       (state_wf dump_bytes dump_base_phys_addr s →
        ∃ s' lbl,
          walker (S fuel) pa ty s = Ok (s', Some (node_id_of pa)) ∧
          node (node_id_of pa) lbl ∈ dot s' ∧ label_addr lbl = pa ∧
          label_rows lbl = rows)) ∧
  (∀ pml4_offset_in_dump, ∃ o,
     parse_paging_structure dump_bytes dump_base_phys_addr pml4_offset_in_dump
     = Ok o ∧
     ∀ pa ty,
       reaches (dump_base_phys_addr + pml4_offset_in_dump, PML4) (pa, ty) →
       inside pa →
       (∃ lbl,
          node (node_id_of pa) lbl ∈ graph o ∧ label_addr lbl = pa ∧
          ∀ i a f,
            (i, a, f) ∈ label_rows lbl ↔
            0 ≤ i < 512 ∧ Z.testbit (slot_value pa i) 0 = true ∧
            a = get_next_table_addr (slot_value pa i) ∧
            f = decode_flags (slot_value pa i)) ∧
       (∀ i, 0 ≤ i < 512 →
          let e := slot_value pa i in
          let c := get_next_table_addr e in
          (Z.testbit e 0 = true → ty ≠ PT → Z.testbit e 7 = false →
             (inside c →
                (∃ lbl, node (node_id_of c) lbl ∈ graph o ∧ label_addr lbl = c)
                ∧ edge (node_id_of pa) (node_id_of c) (edge_label i) ∈ graph o)
             ∧ (¬ inside c → out_of_bounds_message c ∈ printed o)) ∧
          (∀ h, edge (node_id_of pa) h (edge_label i) ∈ graph o →
                Z.testbit e 0 = true ∧ Z.testbit e 7 = false ∧ inside c ∧
                h = node_id_of c)) ∧
       ((∀ ty', reaches (dump_base_phys_addr + pml4_offset_in_dump, PML4)
                  (pa, ty') → ty' = PT) →
        ∀ h l, edge (node_id_of pa) h l ∉ graph o)).
Proof.
  split; [|split].
  - intros fuel pa ty i v Hb Hi.
    pose proof (visit_entry_cases dump_bytes dump_base_phys_addr
                  (walker fuel) pa ty i v Hb Hi) as H.
    cbv zeta in H. cbv zeta. destruct H as (H1 & H2 & H3 & _). done.
  - intros fuel pa ty s Hb Hfuel.
    destruct (traverse_call fuel pa ty s Hb Hfuel)
      as (s1 & Hloop & Hcall & Hleaf).
    exists s1, (present_rows dump_bytes dump_base_phys_addr pa),
      (links dump_bytes dump_base_phys_addr pa
         (descending dump_bytes dump_base_phys_addr ty pa)).
    split; [done|]. split; [done|].
    split; [intros i a f; apply present_rows_elem|].
    split; [intros i h; apply pending_elem|]. split; [done|].
    intros Hwf.
    destruct (traverse_emits (S fuel) pa ty s Hb Hfuel Hwf)
      as (s' & lbl & Heq & _ & Hin & Haddr & Hrows).
    by exists s', lbl.
  - intros off. eexists. split; [by apply parse_total|].
    destruct (walk_outcome_exact dump_bytes dump_base_phys_addr off)
      as (Hsound & _ & Hdone).
    rewrite Forall_forall in Hsound.
    intros pa ty Hreach Hb. split; [|split].
    + pose proof (walk_outcome_covers _ _ _ (pa, ty) Hreach Hb) as Hn.
      apply node_names_elem in Hn as [lbl Hin]. exists lbl.
      destruct (dot_wf_node _ _ _ _ _ (walk_outcome_wf _ _ _) Hin)
        as (Hid & _ & Hrows).
      apply node_id_of_inj in Hid. split; [done|]. split; [done|].
      intros i a f. rewrite Hrows, <- Hid. apply present_rows_elem.
    + intros i Hi e c. split.
      * intros Hp Hty Hps.
        assert (Hd : descends ty (slot_value pa i) = true)
          by (by apply descends_bits).
        destruct (descends_next _ _ Hd) as [ty' Hty'].
        assert (Hc : reaches (dump_base_phys_addr + off, PML4) (c, ty')).
        { eapply rtc_r; [exact Hreach|].
          by apply descends_step. }
        split.
        -- intros Hbc. split.
           ++ pose proof (walk_outcome_covers _ _ _ (c, ty') Hc Hbc) as Hn.
              apply node_names_elem in Hn as [lbl Hin]. exists lbl.
              split; [done|].
              destruct (dot_wf_node _ _ _ _ _ (walk_outcome_wf _ _ _) Hin)
                as (Hid & _ & _).
              by apply node_id_of_inj in Hid.
           ++ destruct (Hdone _ Hreach) as [_ He]. by apply (He i).
        -- intros Hbc. destruct (Hdone _ Hc) as [Hl _]. by apply Hl.
      * intros h Hin.
        destruct (Hsound _ Hin)
          as ([pa2 ty2] & j & _ & _ & _ & Hd & Hbc & Ht & Hh & Hl).
        cbn [fst snd] in *.
        apply node_id_of_inj in Ht. apply edge_label_inj in Hl. subst pa2 j.
        apply descends_bits in Hd as (? & _ & ?). done.
    + intros Honly h l Hin.
      destruct (Hsound _ Hin)
        as ([pa2 ty2] & j & Hr & _ & _ & Hd & _ & Ht & _).
      cbn [fst snd] in *. apply node_id_of_inj in Ht. subst pa2.
      apply descends_bits in Hd as (_ & Hne & _).
      by apply Hne, Honly.
Qed.

(** C6. The walker reads the 512 slots of a table inside the dump in
    increasing order, slot [i] being the 8-byte little-endian unsigned
    integer at offset [8 * i] of the table, and the mask
    [0x000FFFFFFFFFF000] keeps bits 12 to 51 of a slot and clears the
    others.  A call of [traverse] on such a table adds its node with exactly
    the rows of the present slots, in increasing slot order, each as (slot
    index, masked slot, decoded flags); from a well-formed state that node is
    in the resulting graph.  In a whole run every table inside the dump that
    the walk reaches, the root included, has a node with these rows, and
    every node of the graph is one of these. *)
Theorem table_rows_little_endian :
  (∀ v, get_next_table_addr v = Z.land v 0x000FFFFFFFFFF000 ∧
        ∀ k, 0 ≤ k →
             Z.testbit (get_next_table_addr v) k
             = Z.testbit v k && bool_decide (12 ≤ k ≤ 51)) ∧
  seqZ 0 PAGE_TABLE_ENTRIES = (λ k : nat, Z.of_nat k) <$> seq 0 512 ∧
  (∀ pa i, inside pa → 0 ≤ i < 512 →
     unpack_Q (slice dump_bytes
                 (get_dump_offset dump_base_phys_addr pa + i * ENTRY_SIZE)
                 (get_dump_offset dump_base_phys_addr pa
                  + (i + 1) * ENTRY_SIZE))
     = Ok (slot_word pa i)
     ∧ 0 ≤ slot_word pa i < 2 ^ 64) ∧
  (∀ fuel pa ty s, inside pa → (depth ty ≤ S fuel)%nat →
     (∃ s1 pending,
        for_each (visit_entry dump_bytes (walker fuel)
                    (get_dump_offset dump_base_phys_addr pa) ty
                    (table_type_eqb ty PT))
                 (seqZ 0 PAGE_TABLE_ENTRIES) (Locals s [] [])
        = Ok (Locals s1 (little_endian_rows pa) pending) ∧
        walker (S fuel) pa ty s
        = Ok (add_edges (node_id_of pa) pending
                (add_table_node pa ty (little_endian_rows pa) s1).1,
              Some (node_id_of pa))) ∧
     (state_wf dump_bytes dump_base_phys_addr s →
      ∃ s' lbl,
        walker (S fuel) pa ty s = Ok (s', Some (node_id_of pa)) ∧
        node (node_id_of pa) lbl ∈ dot s' ∧ label_addr lbl = pa ∧
        label_rows lbl = little_endian_rows pa)) ∧
  (∀ pml4_offset_in_dump, ∃ o,
     parse_paging_structure dump_bytes dump_base_phys_addr pml4_offset_in_dump
     = Ok o ∧
     (inside (dump_base_phys_addr + pml4_offset_in_dump) →
      ∃ lbl,
        node (node_id_of (dump_base_phys_addr + pml4_offset_in_dump)) lbl
        ∈ graph o ∧
        label_addr lbl = dump_base_phys_addr + pml4_offset_in_dump ∧
        label_rows lbl
        = little_endian_rows (dump_base_phys_addr + pml4_offset_in_dump)) ∧
     (∀ pa ty,
        reaches (dump_base_phys_addr + pml4_offset_in_dump, PML4) (pa, ty) →
        inside pa →
        ∃ lbl,
          node (node_id_of pa) lbl ∈ graph o ∧ label_addr lbl = pa ∧
          label_rows lbl = little_endian_rows pa) ∧
     (∀ n lbl, node n lbl ∈ graph o →
        n = node_id_of (label_addr lbl) ∧ inside (label_addr lbl) ∧
        label_rows lbl = little_endian_rows (label_addr lbl))).
Proof.
  split; [intros v; split; [done|apply get_next_table_addr_bits]|].
  split.
  { unfold seqZ, PAGE_TABLE_ENTRIES. change (Z.to_nat 512) with 512%nat.
    apply list_fmap_ext. intros ? k _. lia. }
  split.
  { intros pa i Hb Hi. rewrite unpack_Q_slot by done.
    rewrite entry_at_le by done. split; [done|apply le_uint64_at_range]. }
  split.
  - intros fuel pa ty s Hb Hfuel.
    rewrite <- (present_rows_little_endian pa Hb). split.
    + destruct (traverse_call fuel pa ty s Hb Hfuel)
        as (s1 & Hloop & Hcall & _).
      by exists s1, (links dump_bytes dump_base_phys_addr pa
                       (descending dump_bytes dump_base_phys_addr ty pa)).
    + intros Hwf.
      destruct (traverse_emits (S fuel) pa ty s Hb Hfuel Hwf)
        as (s' & lbl & Heq & _ & Hin & Haddr & Hrows).
      by exists s', lbl.
  - intros off. eexists. split; [by apply parse_total|].
    assert (Hreached : ∀ pa ty,
      reaches (dump_base_phys_addr + off, PML4) (pa, ty) → inside pa →
      ∃ lbl,
        node (node_id_of pa) lbl
        ∈ graph (walk_outcome dump_bytes dump_base_phys_addr off) ∧
        label_addr lbl = pa ∧ label_rows lbl = little_endian_rows pa).
    { intros pa ty Hreach Hb.
      pose proof (walk_outcome_covers _ _ _ (pa, ty) Hreach Hb) as Hn.
      apply node_names_elem in Hn as [lbl Hin]. exists lbl.
      destruct (dot_wf_node _ _ _ _ _ (walk_outcome_wf _ _ _) Hin)
        as (Hid & _ & Hrows).
      apply node_id_of_inj in Hid. split; [done|]. split; [done|].
      rewrite Hrows, <- Hid. by apply present_rows_little_endian. }
    split; [|split; [exact Hreached|]].
    + intros Hb. exact (Hreached _ PML4 (rtc_refl _ _) Hb).
    + intros n lbl Hin.
      destruct (dot_wf_node _ _ _ _ _ (walk_outcome_wf _ _ _) Hin)
        as (Hid & Hb & Hrows).
      split; [done|]. split; [done|].
      rewrite Hrows. by apply present_rows_little_endian.
Qed.

End calls.

Lemma recursion_rule_witness :
  ∃ o,
    parse_paging_structure dump_cycle 0 0 = Ok o ∧
    (∃ lbl, node (node_id_of 0x1000) lbl ∈ graph o ∧ label_addr lbl = 0x1000) ∧
    edge (node_id_of 0) (node_id_of 0x1000) (edge_label 0) ∈ graph o ∧
    (∀ h, edge (node_id_of 0) h (edge_label 1) ∉ graph o).
Proof.
  destruct (recursion_rule dump_cycle 0) as (_ & _ & Hrun).
  destruct (Hrun 0) as (o & Hparse & Hall).
  exists o. split; [exact Hparse|].
  assert (Hb : in_bounds dump_cycle 0 0) by compute_done.
  destruct (Hall 0 PML4 (rtc_refl _ _) Hb) as (_ & Hslots & _).
  assert (Hc : get_next_table_addr (entry_at dump_cycle 0 0 0) = 0x1000)
    by (vm_compute; reflexivity).
  destruct (Hslots 0) as [Hdesc _]; [lia|]. cbv zeta in Hdesc.
  rewrite Hc in Hdesc.
  destruct Hdesc as [Hin _];
    [vm_compute; reflexivity|done|vm_compute; reflexivity|].
  destruct Hin as [Hnode Hedge]; [compute_done|].
  split; [exact Hnode|]. split; [exact Hedge|].
  intros h Hh. destruct (Hslots 1) as [_ Hno]; [lia|].
  destruct (Hno h Hh) as [Hp _]. vm_compute in Hp. discriminate.
Defined.

Lemma table_rows_little_endian_witness :
  ∃ o lbl,
    parse_paging_structure dump_shared 0 0 = Ok o ∧
    node (node_id_of 0x1000) lbl ∈ graph o ∧
    label_rows lbl = [(0, 0x100000, "P")].
Proof.
  destruct (table_rows_little_endian dump_shared 0)
    as (_ & _ & _ & _ & Hrun).
  destruct (Hrun 0) as (o & Hparse & _ & Hreached & _).
  destruct (Hreached 0x1000 PDPT) as (lbl & Hin & _ & Hrows).
  - apply rtc_once. split; [compute_done|]. exists 0.
    split; [lia|]. split; [vm_compute; reflexivity|].
    split; [reflexivity|vm_compute; reflexivity].
  - compute_done.
  - exists o, lbl. split; [exact Hparse|]. split; [exact Hin|].
    rewrite Hrows. vm_compute. reflexivity.
Defined.

(** X4. The nodes of a graph are exactly the tables inside the dump that the
    walk reaches from the root by descending through present slots without
    the Page-Size bit; the level written in a node's label is a level at
    which the walk reaches that table. *)
Theorem graph_nodes_are_reached_tables (dump_bytes : list byte)
    (dump_base_phys_addr pml4_offset_in_dump : Z) :
  ∃ o,
    parse_paging_structure dump_bytes dump_base_phys_addr pml4_offset_in_dump
    = Ok o ∧
    (∀ n lbl, node n lbl ∈ graph o →
       n = node_id_of (label_addr lbl) ∧
       in_bounds dump_bytes dump_base_phys_addr (label_addr lbl) ∧
       rtc (points_to dump_bytes dump_base_phys_addr)
           (dump_base_phys_addr + pml4_offset_in_dump, PML4)
           (label_addr lbl, label_type lbl)) ∧
    (∀ pa ty,
       rtc (points_to dump_bytes dump_base_phys_addr)
           (dump_base_phys_addr + pml4_offset_in_dump, PML4) (pa, ty) →
       in_bounds dump_bytes dump_base_phys_addr pa →
       ∃ lbl, node (node_id_of pa) lbl ∈ graph o ∧ label_addr lbl = pa).
Proof.
  eexists. split; [by apply parse_total|].
  destruct (walk_outcome_exact dump_bytes dump_base_phys_addr
              pml4_offset_in_dump) as (Hsound & _ & _).
  split.
  - intros n lbl Hin. rewrite Forall_forall in Hsound.
    exact (Hsound _ Hin).
  - intros pa ty Hreach Hb.
    pose proof (walk_outcome_covers _ _ _ (pa, ty) Hreach Hb) as Hn.
    apply node_names_elem in Hn as [lbl Hin]. exists lbl. split; [done|].
    destruct (dot_wf_node _ _ _ _ _ (walk_outcome_wf _ _ _) Hin)
      as (Hid & _ & _).
    by apply node_id_of_inj in Hid.
Qed.

(** X5. The edges of a graph are exactly these: one from a table inside the
    dump that the walk reaches at a level that is not the leaf level, to the
    table designated by one of its present slots without the Page-Size bit,
    provided that table is inside the dump, labelled with the slot index. *)
Theorem graph_edges_are_descended_slots (dump_bytes : list byte)
    (dump_base_phys_addr pml4_offset_in_dump : Z) :
  ∃ o,
    parse_paging_structure dump_bytes dump_base_phys_addr pml4_offset_in_dump
    = Ok o ∧
    ∀ t h l,
      edge t h l ∈ graph o ↔
      ∃ pa ty i,
        rtc (points_to dump_bytes dump_base_phys_addr)
            (dump_base_phys_addr + pml4_offset_in_dump, PML4) (pa, ty) ∧
        in_bounds dump_bytes dump_base_phys_addr pa ∧ 0 ≤ i < 512 ∧
        descends ty (entry_at dump_bytes dump_base_phys_addr pa i) = true ∧
        in_bounds dump_bytes dump_base_phys_addr
          (child_of dump_bytes dump_base_phys_addr pa i) ∧
        t = node_id_of pa ∧
        h = node_id_of (child_of dump_bytes dump_base_phys_addr pa i) ∧
        l = edge_label i.
Proof.
  eexists. split; [by apply parse_total|].
  destruct (walk_outcome_exact dump_bytes dump_base_phys_addr
              pml4_offset_in_dump) as (Hsound & _ & Hdone).
  intros t h l. split.
  - intros Hin. rewrite Forall_forall in Hsound.
    destruct (Hsound _ Hin) as ([pa ty] & i & Hrest). by exists pa, ty, i.
  - intros (pa & ty & i & Hreach & Hb & Hi & Hd & Hbc & -> & -> & ->).
    destruct (Hdone _ Hreach) as [_ Hedges]. by apply Hedges.
Qed.

(** X6. The lines printed by a run are exactly the reports of the tables
    outside the dump that the walk comes to (the root, or a table designated
    by a slot descended through); nothing is printed iff every table the walk
    comes to is inside the dump. *)
Theorem reports_are_tables_outside (dump_bytes : list byte)
    (dump_base_phys_addr pml4_offset_in_dump : Z) :
  ∃ o,
    parse_paging_structure dump_bytes dump_base_phys_addr pml4_offset_in_dump
    = Ok o ∧
    (∀ line,
       line ∈ printed o ↔
       ∃ pa ty,
         rtc (points_to dump_bytes dump_base_phys_addr)
             (dump_base_phys_addr + pml4_offset_in_dump, PML4) (pa, ty) ∧
         ¬ in_bounds dump_bytes dump_base_phys_addr pa ∧
         line = out_of_bounds_message pa) ∧
    (printed o = [] ↔
     ∀ pa ty,
       rtc (points_to dump_bytes dump_base_phys_addr)
           (dump_base_phys_addr + pml4_offset_in_dump, PML4) (pa, ty) →
       in_bounds dump_bytes dump_base_phys_addr pa).
Proof.
  eexists. split; [by apply parse_total|].
  destruct (walk_outcome_exact dump_bytes dump_base_phys_addr
              pml4_offset_in_dump) as (_ & Hsound & Hdone).
  assert (Hiff : ∀ line,
    line ∈ printed (walk_outcome dump_bytes dump_base_phys_addr
                      pml4_offset_in_dump) ↔
    ∃ pa ty,
      rtc (points_to dump_bytes dump_base_phys_addr)
          (dump_base_phys_addr + pml4_offset_in_dump, PML4) (pa, ty) ∧
      ¬ in_bounds dump_bytes dump_base_phys_addr pa ∧
      line = out_of_bounds_message pa).
  { intros line. split.
    - intros Hin. rewrite Forall_forall in Hsound.
      destruct (Hsound _ Hin) as ([pa ty] & Hrest). by exists pa, ty.
    - intros (pa & ty & Hreach & Hb & ->).
      destruct (Hdone _ Hreach) as [Hline _]. by apply Hline. }
  split; [done|]. split.
  - intros Hnil pa ty Hreach.
    destruct (decide (in_bounds dump_bytes dump_base_phys_addr pa))
      as [Hb|Hb]; [done|].
    exfalso. assert (Hin : out_of_bounds_message pa ∈ @nil string).
    { rewrite <- Hnil. apply Hiff. by exists pa, ty. }
    by apply elem_of_nil in Hin.
  - intros Hall.
    destruct (printed _) as [|line rest] eqn:Hp; [done|]. exfalso.
    destruct (proj1 (Hiff line)) as (pa & ty & Hreach & Hb & _).
    + by left.
    + by apply Hb, (Hall pa ty).
Qed.

(** ** The address and the flag text of a slot *)

Lemma get_next_table_addr_closed (v : Z) :
  get_next_table_addr v = (v / 2 ^ 12) mod 2 ^ 40 * 2 ^ 12.
Proof.
  rewrite <- Z.shiftl_mul_pow2, <- Z.land_ones, <- Z.shiftr_div_pow2 by lia.
  apply Z.bits_inj'. intros n Hn.
  rewrite get_next_table_addr_bits, Z.shiftl_spec by done.
  destruct (decide (n < 12)).
  - rewrite (Z.testbit_neg_r _ (n - 12)) by lia.
    rewrite bool_decide_eq_false_2 by lia. apply andb_false_r.
  - rewrite Z.land_spec, Z.shiftr_spec by lia.
    replace (n - 12 + 12) with n by lia. f_equal.
    destruct (decide (n ≤ 51)).
    + rewrite Z.ones_spec_low by lia. apply bool_decide_eq_true_2. lia.
    + rewrite Z.ones_spec_high by lia. apply bool_decide_eq_false_2. lia.
Qed.

Lemma get_next_table_addr_range (v : Z) :
  0 ≤ get_next_table_addr v < 2 ^ 52 ∧ get_next_table_addr v mod 4096 = 0.
Proof.
  rewrite get_next_table_addr_closed. change (2 ^ 12) with 4096.
  pose proof (Z.mod_pos_bound (v / 4096) (2 ^ 40) ltac:(lia)).
  split; [lia|]. apply Z.mod_mul. lia.
Qed.

(** X1. The address [get_next_table_addr] extracts from any integer is the
    40-bit page-frame number of the entry times 4096: it lies in [0, 2^52), is
    a multiple of 4096, is left unchanged by a second extraction, and does
    not exceed a non-negative entry. *)
Theorem next_table_addr_is_page_frame (v : Z) :
  get_next_table_addr v = (v / 4096) mod 2 ^ 40 * 4096 ∧
  0 ≤ get_next_table_addr v < 2 ^ 52 ∧
  get_next_table_addr v mod 4096 = 0 ∧
  get_next_table_addr (get_next_table_addr v) = get_next_table_addr v ∧
  (0 ≤ v → get_next_table_addr v ≤ v).
Proof.
  pose proof (get_next_table_addr_closed v) as Heq.
  change (2 ^ 12) with 4096 in Heq.
  pose proof (Z.mod_pos_bound (v / 4096) (2 ^ 40) ltac:(lia)) as Hq.
  split; [done|]. split; [rewrite Heq; lia|].
  split; [rewrite Heq; apply Z.mod_mul; lia|]. split.
  - apply Z.bits_inj'. intros n Hn.
    rewrite !get_next_table_addr_bits by done.
    by destruct (Z.testbit v n), (bool_decide (12 ≤ n ≤ 51)).
  - intros Hv. rewrite Heq.
    pose proof (Z.mod_le (v / 4096) (2 ^ 40)
                  ltac:(apply Z.div_pos; lia) ltac:(lia)) as Hle.
    pose proof (Z.mul_div_le v 4096 ltac:(lia)). lia.
Qed.

Lemma NoDup_fmap_elem_inj {T U} (f : T → U) (l : list T) (a b : T) :
  NoDup (f <$> l) → a ∈ l → b ∈ l → f a = f b → a = b.
Proof.
  induction l as [|x l IH]; intros Hnd Ha Hb Heq; [by apply elem_of_nil in Ha|].
  rewrite fmap_cons in Hnd. apply NoDup_cons in Hnd as [Hx Hnd].
  apply elem_of_cons in Ha as [->|Ha]; apply elem_of_cons in Hb as [->|Hb].
  - done.
  - exfalso. apply Hx. rewrite Heq. by apply list_elem_of_fmap_2.
  - exfalso. apply Hx. rewrite <- Heq. by apply list_elem_of_fmap_2.
  - by apply IH.
Qed.

Lemma decode_flags_low_bits (v : Z) :
  decode_flags v = decode_flags (v mod 512).
Proof.
  unfold decode_flags. rewrite !decode_flags_list_filter. do 2 f_equal.
  apply filter_ext_elem. intros f _.
  change 512 with (2 ^ 9). rewrite <- Z.land_ones, Z.land_spec by lia.
  rewrite Z.ones_spec_low by (destruct f; cbn; lia).
  by rewrite andb_true_r.
Qed.

Lemma decode_flags_table_NoDup : NoDup (decode_flags <$> seqZ 0 512).
Proof. compute_done. Qed.

(** X2. The text [decode_flags] produces depends on the nine low bits of the
    entry and on nothing else, and it determines them: two entries get the
    same text iff they agree modulo 512.  In particular the text is empty
    iff none of the nine flag bits is set. *)
Theorem decode_flags_determines_low_bits (v w : Z) :
  (decode_flags v = decode_flags w ↔ v mod 512 = w mod 512) ∧
  (decode_flags v = "" ↔ v mod 512 = 0).
Proof.
  assert (Hiff : ∀ a b, decode_flags a = decode_flags b ↔ a mod 512 = b mod 512).
  { intros a b. split.
    - rewrite (decode_flags_low_bits a), (decode_flags_low_bits b).
      apply (NoDup_fmap_elem_inj decode_flags (seqZ 0 512));
        [apply decode_flags_table_NoDup|..];
        apply elem_of_seqZ; pose proof (Z.mod_pos_bound a 512);
        pose proof (Z.mod_pos_bound b 512); lia.
    - intros Heq.
      by rewrite (decode_flags_low_bits a), (decode_flags_low_bits b), Heq. }
  split; [apply Hiff|].
  change "" with (decode_flags 0). rewrite Hiff. reflexivity.
Qed.

Lemma decode_flags_present (v : Z) :
  Z.testbit v 0 = true → ∃ rest, decode_flags v = String "P" rest.
Proof.
  intros Hp. unfold decode_flags. rewrite decode_flags_list_filter.
  unfold FLAG_MASKS.
  rewrite filter_cons_True by (change (Is_true (Z.testbit v 0)); by rewrite Hp).
  rewrite fmap_cons. cbn [flag_name]. unfold join.
  destruct (flag_name <$> _) as [|x l]; cbn; eauto.
Qed.

Lemma row_indices (dump_bytes : list byte) (dump_base_phys_addr pa : Z)
    (l : list Z) :
  (λ r : row, r.1.1) <$> (row_of dump_bytes dump_base_phys_addr pa <$> l) = l.
Proof. induction l as [|i l IH]; [done|]. cbn. by rewrite IH. Qed.

(** X3. In every node of every graph the rows are listed by strictly
    increasing slot index within 0..511 (their indices are a subsequence of
    0, 1, ..., 511), so a table has at most 512 rows and no slot twice; the
    address of each row is a multiple of 4096 in [0, 2^52), and its flag text
    starts with P. *)
Theorem rows_well_formed (dump_bytes : list byte)
    (dump_base_phys_addr pml4_offset_in_dump : Z) :
  ∃ o,
    parse_paging_structure dump_bytes dump_base_phys_addr pml4_offset_in_dump
    = Ok o ∧
    ∀ n lbl, node n lbl ∈ graph o →
      (λ r : row, r.1.1) <$> label_rows lbl `sublist_of` seqZ 0 512 ∧
      (length (label_rows lbl) ≤ 512)%nat ∧
      ∀ i a f, (i, a, f) ∈ label_rows lbl →
        0 ≤ i < 512 ∧ 0 ≤ a < 2 ^ 52 ∧ a mod 4096 = 0 ∧
        ∃ rest, f = String "P" rest.
Proof.
  eexists. split; [by apply parse_total|].
  intros n lbl Hin.
  destruct (dot_wf_node _ _ _ _ _ (walk_outcome_wf _ _ _) Hin)
    as (_ & _ & ->).
  unfold present_rows.
  assert (Hsub : (λ r : row, r.1.1) <$>
            (row_of dump_bytes dump_base_phys_addr (label_addr lbl) <$>
               filter (λ i, Z.testbit
                         (entry_at dump_bytes dump_base_phys_addr
                            (label_addr lbl) i) 0)
                      (seqZ 0 PAGE_TABLE_ENTRIES))
            `sublist_of` seqZ 0 512).
  { rewrite row_indices. apply sublist_filter. }
  split; [done|]. split.
  - apply sublist_length in Hsub.
    rewrite length_fmap, length_seqZ in Hsub. lia.
  - intros i a f (j & [= -> -> ->] & [Hp Hj]%list_elem_of_filter)%list_elem_of_fmap.
    apply slot_range in Hj. apply Is_true_true in Hp.
    destruct (get_next_table_addr_range
                (entry_at dump_bytes dump_base_phys_addr (label_addr lbl) j))
      as [? ?].
    split; [done|]. split; [done|]. split; [done|].
    by apply decode_flags_present.
Qed.

(** ** A root table that leads nowhere *)

Lemma filter_none {T} (Φ : T → Prop) `{!∀ x, Decision (Φ x)} (l : list T) :
  (∀ x, x ∈ l → ¬ Φ x) → filter Φ l = [].
Proof.
  induction l as [|x l IH]; intros Hl; [done|].
  rewrite filter_cons_False by (apply Hl; left).
  apply IH. intros y Hy. apply Hl. by right.
Qed.

(** X7. When the top-level table is inside the dump and none of its slots is
    descended through (each is absent or has the Page-Size bit), the graph
    is that single table: one node at level PML4 with its present rows, no
    edge, and nothing is printed.  If moreover no slot is present, as in a
    dump of zero bytes, the node has no row. *)
Theorem root_without_children (dump_bytes : list byte)
    (dump_base_phys_addr pml4_offset_in_dump : Z) :
  let root := dump_base_phys_addr + pml4_offset_in_dump in
  in_bounds dump_bytes dump_base_phys_addr root →
  (∀ i, 0 ≤ i < 512 →
        descends PML4 (entry_at dump_bytes dump_base_phys_addr root i)
        = false) →
  parse_paging_structure dump_bytes dump_base_phys_addr pml4_offset_in_dump
  = Ok (Outcome
          [node (node_id_of root)
             (Label PML4 root
                (present_rows dump_bytes dump_base_phys_addr root))] []) ∧
  ((∀ i, 0 ≤ i < 512 →
         Z.testbit (entry_at dump_bytes dump_base_phys_addr root i) 0 = false) →
   present_rows dump_bytes dump_base_phys_addr root = []).
Proof.
  intros root Hb Hnone. split.
  - unfold parse_paging_structure. rewrite parse_total by done.
    unfold walk_outcome. fold root. cbn [walk]. unfold walk_PML4, walk_step.
    rewrite decide_True by done. unfold descending.
    rewrite filter_none; [reflexivity|].
    intros i Hi%slot_range. rewrite (Hnone i Hi). by intros ?.
  - intros Habsent. unfold present_rows.
    rewrite filter_none; [reflexivity|].
    intros i Hi%slot_range. rewrite (Habsent i Hi). by intros ?.
Qed.

Lemma root_without_children_witness :
  parse_paging_structure (zeros 4096) 0 0
  = Ok (Outcome [node (node_id_of 0) (Label PML4 0 [])] []).
Proof.
  assert (Hzero : Forall (λ i, entry_at (zeros 4096) 0 (0 + 0) i = 0)
                    (seqZ 0 512)) by compute_done.
  rewrite Forall_forall in Hzero.
  assert (Hb : in_bounds (zeros 4096) 0 (0 + 0)) by compute_done.
  assert (Hnone : ∀ i, 0 ≤ i < 512 →
            descends PML4 (entry_at (zeros 4096) 0 (0 + 0) i) = false).
  { intros i Hi. rewrite Hzero; [reflexivity|]. apply elem_of_seqZ. lia. }
  destruct (root_without_children (zeros 4096) 0 0 Hb Hnone) as [Hrun Hrows].
  rewrite Hrun, Hrows; [reflexivity|].
  intros i Hi. rewrite Hzero; [reflexivity|]. apply elem_of_seqZ. lia.
Defined.

(** * Alignment checks of [tooling/align.py] *)

(** What a call does: it returns, or it raises one of the two exceptions the
    body can raise. *)
Inductive raising (T : Type) : Type :=
| Returns (a : T)
| RaisesValueError (message : string)
| RaisesKeyError.
Arguments Returns {T} a.
Arguments RaisesValueError {T} message.
Arguments RaisesKeyError {T}.

Definition alignment_map : gmap string Z :=
  list_to_map [("16b", 16); ("4kib", 4 * 1024); ("2mib", 2 * 1024 * 1024);
               ("1gib", 1 * 1024 * 1024 * 1024)].

Definition is_aligned (value : Z) (alignment : string) : raising bool :=
  if decide (alignment ∉ dom alignment_map) then
    RaisesValueError ("Invalid alignment: " +:+ alignment)
  else
    match alignment_map !! alignment with
    | None => RaisesKeyError
    | Some alignment_in_bytes => Returns (value `mod` alignment_in_bytes =? 0)
    end.

Lemma alignment_map_lookup (alignment : string) (n : Z) :
  alignment_map !! alignment = Some n ↔
  (alignment, n) ∈ [("16b", 16); ("4kib", 4096); ("2mib", 2097152);
                    ("1gib", 1073741824)].
Proof.
  unfold alignment_map. rewrite <- elem_of_list_to_map; [done|].
  compute_done.
Qed.

Lemma is_aligned_known (value : Z) (alignment : string) (n : Z) :
  alignment_map !! alignment = Some n →
  is_aligned value alignment = Returns (value `mod` n =? 0).
Proof.
  intros Hn. unfold is_aligned. rewrite decide_False, Hn; [done|].
  intros Hnot. apply Hnot, elem_of_dom. by eexists.
Qed.

(** X8. [is_aligned] raises ValueError, with the message naming the argument,
    exactly when the alignment is not one of the four lower-case names
    16b, 4kib, 2mib, 1gib (so 4KiB, as the prompt of the script spells it, is
    refused unless lower-cased first); it never raises KeyError, and for the
    four names it returns whether the value is a multiple of 16, 4096,
    2097152 or 1073741824. *)
Theorem is_aligned_names (value : Z) (alignment : string) :
  (is_aligned value alignment
   = RaisesValueError ("Invalid alignment: " +:+ alignment) ↔
   alignment ∉ ["16b"; "4kib"; "2mib"; "1gib"]) ∧
  is_aligned value alignment ≠ RaisesKeyError ∧
  (∀ n, (alignment, n) ∈ [("16b", 16); ("4kib", 4096); ("2mib", 2097152);
                          ("1gib", 1073741824)] →
        is_aligned value alignment = Returns (value `mod` n =? 0)) ∧
  is_aligned value "4KiB" = RaisesValueError "Invalid alignment: 4KiB".
Proof.
  assert (Hdom : alignment ∈ dom alignment_map ↔
                 alignment ∈ ["16b"; "4kib"; "2mib"; "1gib"]).
  { rewrite elem_of_dom. split.
    - intros [n Hn]. apply alignment_map_lookup in Hn.
      repeat (apply elem_of_cons in Hn as [[= -> _]|Hn]; [set_solver|]).
      by apply elem_of_nil in Hn.
    - intros Hin. repeat (apply elem_of_cons in Hin as [->|Hin]; [by eexists|]).
      by apply elem_of_nil in Hin. }
  split; [|split; [|split]].
  - unfold is_aligned. destruct (decide _) as [Hnot|Hin].
    + split; [intros _|done]. by rewrite <- Hdom.
    + split.
      * destruct (alignment_map !! alignment); discriminate.
      * intros Hnot. exfalso. apply Hin. by rewrite Hdom.
  - unfold is_aligned. destruct (decide _) as [Hnot|Hin]; [done|].
    destruct (alignment_map !! alignment) eqn:Hl; [done|].
    exfalso. apply Hin. intros [n Hn]%elem_of_dom. congruence.
  - intros n Hn. by apply is_aligned_known, alignment_map_lookup.
  - reflexivity.
Qed.

Lemma alignment_sizes (alignment : string) (n : Z) :
  (alignment, n) ∈ [("16b", 16); ("4kib", 4096); ("2mib", 2097152);
                    ("1gib", 1073741824)] →
  n = 2 ^ 4 ∨ n = 2 ^ 12 ∨ n = 2 ^ 21 ∨ n = 2 ^ 30.
Proof.
  intros Hn. repeat (apply elem_of_cons in Hn as [[= ? ->]|Hn]; [tauto|]).
  by apply elem_of_nil in Hn.
Qed.

Lemma returns_true_iff (value n : Z) :
  0 < n →
  Returns (value `mod` n =? 0) = Returns true ↔ (n | value).
Proof.
  intros Hn. rewrite <- Z.mod_divide by lia. split.
  - intros [= H]. by apply Z.eqb_eq.
  - intros ->. reflexivity.
Qed.

(** X9. For each of the four names, [is_aligned] answers true exactly for the
    integer multiples of the size, negative ones included, which are the
    values whose bits below the size are all zero; a value and its opposite
    get the same answer. *)
Theorem is_aligned_multiples (value : Z) (alignment : string) (n : Z) :
  (alignment, n) ∈ [("16b", 16); ("4kib", 4096); ("2mib", 2097152);
                    ("1gib", 1073741824)] →
  (is_aligned value alignment = Returns true ↔ ∃ k, value = k * n) ∧
  (is_aligned value alignment = Returns true ↔ Z.land value (n - 1) = 0) ∧
  is_aligned (- value) alignment = is_aligned value alignment.
Proof.
  intros Hn. pose proof (alignment_sizes _ _ Hn) as Hsize.
  assert (Hpos : 0 < n) by lia.
  rewrite !(is_aligned_known _ alignment n) by (by apply alignment_map_lookup).
  split; [|split].
  - by rewrite returns_true_iff.
  - rewrite returns_true_iff, <- Z.mod_divide by lia.
    assert (∃ k, 0 ≤ k ∧ n = 2 ^ k) as (k & Hk & ->).
    { destruct Hsize as [-> | [-> | [-> | ->]]]; eexists; (split; [|done]); lia. }
    by rewrite <- Z.land_ones, Z.ones_equiv, <- Z.sub_1_r.
  - f_equal. destruct (Z.eqb_spec (value `mod` n) 0) as [H0|H0].
    + apply Z.eqb_eq. apply Z.mod_divide in H0; [|lia].
      apply Z.mod_divide; [lia|]. by apply Z.divide_opp_r.
    + apply Z.eqb_neq. intros H1. apply H0.
      apply Z.mod_divide in H1; [|lia]. apply Z.mod_divide; [lia|].
      by apply Z.divide_opp_r.
Qed.

Lemma is_aligned_multiples_witness :
  (is_aligned (-8192) "4kib" = Returns true ↔ ∃ k, -8192 = k * 4096) ∧
  (is_aligned (-8192) "4kib" = Returns true ↔ Z.land (-8192) (4096 - 1) = 0) ∧
  is_aligned (- -8192) "4kib" = is_aligned (-8192) "4kib".
Proof. apply is_aligned_multiples. set_solver. Defined.

(** X10. The four alignments are nested: a value aligned to 1 GiB is aligned
    to 2 MiB, one aligned to 2 MiB is aligned to 4 KiB, and one aligned to
    4 KiB is aligned to 16 bytes; none of the converses holds. *)
Theorem alignments_nested (value : Z) :
  (is_aligned value "1gib" = Returns true →
   is_aligned value "2mib" = Returns true) ∧
  (is_aligned value "2mib" = Returns true →
   is_aligned value "4kib" = Returns true) ∧
  (is_aligned value "4kib" = Returns true →
   is_aligned value "16b" = Returns true) ∧
  is_aligned 2097152 "1gib" = Returns false ∧
  is_aligned 4096 "2mib" = Returns false ∧
  is_aligned 16 "4kib" = Returns false.
Proof.
  rewrite (is_aligned_known value "1gib" 1073741824) by done.
  rewrite (is_aligned_known value "2mib" 2097152) by done.
  rewrite (is_aligned_known value "4kib" 4096) by done.
  rewrite (is_aligned_known value "16b" 16) by done.
  rewrite !returns_true_iff by lia.
  split; [|split; [|split; [|done]]]; intros [k ->].
  - exists (k * 512). lia.
  - exists (k * 512). lia.
  - exists (k * 256). lia.
Qed.

(** X11. Alignment is kept by sums, differences and integer multiples: if
    [a] and [b] are aligned to one of the four sizes, so are [a + b],
    [a - b] and every [a * m]. *)
Theorem is_aligned_closed (a b : Z) (alignment : string) :
  is_aligned a alignment = Returns true →
  is_aligned b alignment = Returns true →
  is_aligned (a + b) alignment = Returns true ∧
  is_aligned (a - b) alignment = Returns true ∧
  ∀ m, is_aligned (a * m) alignment = Returns true.
Proof.
  intros Ha Hb.
  destruct (alignment_map !! alignment) as [n|] eqn:Hn; cycle 1.
  { unfold is_aligned in Ha. rewrite Hn in Ha. by destruct (decide _). }
  pose proof (alignment_sizes _ _ (proj1 (alignment_map_lookup _ _) Hn)).
  rewrite (is_aligned_known a _ _ Hn), returns_true_iff in Ha by lia.
  rewrite (is_aligned_known b _ _ Hn), returns_true_iff in Hb by lia.
  rewrite !(is_aligned_known _ _ _ Hn), !returns_true_iff by lia.
  split; [by apply Z.divide_add_r|]. split; [by apply Z.divide_sub_r|].
  intros m. rewrite (is_aligned_known _ _ _ Hn), returns_true_iff by lia.
  by apply Z.divide_mul_l.
Qed.

Lemma is_aligned_closed_witness :
  is_aligned (4096 + 8192) "4kib" = Returns true ∧
  is_aligned (4096 - 8192) "4kib" = Returns true ∧
  ∀ m, is_aligned (4096 * m) "4kib" = Returns true.
Proof. apply is_aligned_closed; reflexivity. Defined.

(** X12. Every address the walker extracts from an entry passes the 4 KiB
    and the 16-byte alignment checks; it passes the 2 MiB check iff bits 12
    to 20 of the entry are zero, which the walker does not require of an
    entry with the Page-Size bit. *)
Theorem extracted_address_is_4kib_aligned (v : Z) :
  is_aligned (get_next_table_addr v) "4kib" = Returns true ∧
  is_aligned (get_next_table_addr v) "16b" = Returns true ∧
  (is_aligned (get_next_table_addr v) "2mib" = Returns true ↔
   (v / 4096) mod 512 = 0).
Proof.
  pose proof (get_next_table_addr_closed v) as Heq.
  change (2 ^ 12) with 4096 in Heq.
  split; [|split].
  { rewrite (is_aligned_known _ "4kib" 4096) by done.
    apply returns_true_iff; [lia|]. rewrite Heq. by eexists. }
  { rewrite (is_aligned_known _ "16b" 16) by done.
    apply returns_true_iff; [lia|]. rewrite Heq.
    exists ((v / 4096) mod 2 ^ 40 * 256). lia. }
  rewrite (is_aligned_known _ "2mib" 2097152) by done.
  rewrite returns_true_iff, <- Z.mod_divide by lia.
  rewrite Heq. change 2097152 with (512 * 4096).
  rewrite Z.mul_mod_distr_r by lia.
  rewrite Z.mod_mod_divide by (by exists (2 ^ 31)).
  lia.
Qed.

(** * Size of the graph, and longer dumps *)

Definition node_addrs (d : list stmt) : list Z :=
  omap (λ st, match st with
              | node _ lbl => Some (label_addr lbl)
              | edge _ _ _ => None
              end) d.

Lemma node_addrs_names (dump_bytes : list byte) (dump_base_phys_addr : Z)
    (d : list stmt) :
  dot_wf dump_bytes dump_base_phys_addr d →
  node_names d = node_id_of <$> node_addrs d.
Proof.
  intros Hwf. assert (Hall : ∀ n lbl, node n lbl ∈ d →
                               n = node_id_of (label_addr lbl)).
  { intros n lbl Hin. by destruct (dot_wf_node _ _ _ _ _ Hwf Hin). }
  clear Hwf. induction d as [|st d IH]; [done|].
  specialize (IH (λ n lbl Hin, Hall n lbl (list_elem_of_further _ _ _ Hin))).
  destruct st as [n lbl|t h l]; [|exact IH].
  change (n :: node_names d
          = node_id_of (label_addr lbl) :: (node_id_of <$> node_addrs d)).
  rewrite IH. f_equal. apply Hall. left.
Qed.

Lemma node_addrs_elem (d : list stmt) (a : Z) :
  a ∈ node_addrs d ↔ ∃ n lbl, node n lbl ∈ d ∧ label_addr lbl = a.
Proof.
  unfold node_addrs. rewrite list_elem_of_omap. split.
  - intros ([n lbl|] & Hin & [= <-]). by exists n, lbl.
  - intros (n & lbl & Hin & <-). by exists (node n lbl).
Qed.

(** At most [W / m + 1] distinct multiples of [m] lie in a window of width
    [W] starting at [lo]. *)
Lemma count_multiples (l : list Z) (lo m W : Z) :
  0 < m → 0 ≤ W → NoDup l →
  (∀ x, x ∈ l → x mod m = 0 ∧ 0 ≤ x - lo ≤ W) →
  Z.of_nat (length l) ≤ W / m + 1.
Proof.
  intros Hm HW Hnd Hl.
  assert (Hinj : NoDup ((λ x, (x - lo) / m) <$> l)).
  { apply NoDup_fmap_2_strong; [|done]. intros x y Hx Hy Heq.
    destruct (Hl x Hx) as [Hxm _], (Hl y Hy) as [Hym _].
    assert (Hmod : (x - lo) mod m = (y - lo) mod m)
      by (by rewrite (Zminus_mod x), (Zminus_mod y), Hxm, Hym).
    pose proof (Z.div_mod (x - lo) m ltac:(lia)).
    pose proof (Z.div_mod (y - lo) m ltac:(lia)). nia. }
  assert (Hsub : (λ x, (x - lo) / m) <$> l ⊆+ seqZ 0 (W / m + 1)).
  { apply NoDup_submseteq; [done|].
    intros q (x & -> & Hx)%list_elem_of_fmap. destruct (Hl x Hx) as [_ Hr].
    apply elem_of_seqZ.
    pose proof (Z.div_pos (x - lo) m ltac:(lia) ltac:(lia)).
    pose proof (Z.div_le_mono (x - lo) W m ltac:(lia) ltac:(lia)). lia. }
  apply submseteq_length in Hsub.
  rewrite length_fmap, length_seqZ in Hsub.
  pose proof (Z.div_pos W m ltac:(lia) ltac:(lia)). lia.
Qed.

Lemma filter_ne_absent (l : list Z) (r : Z) :
  r ∉ l → filter (λ x, x ≠ r) l = l.
Proof.
  induction l as [|x l IH]; intros Hr; [done|].
  rewrite filter_cons_True by set_solver. f_equal. apply IH. set_solver.
Qed.

Lemma length_without (l : list Z) (r : Z) :
  NoDup l → (length l ≤ length (filter (λ x, x ≠ r) l) + 1)%nat.
Proof.
  induction 1 as [|x l Hx Hnd IH]; [cbn; lia|].
  rewrite filter_cons. destruct (decide (x ≠ r)) as [Hne|Heq]; cbn; [lia|].
  assert (x = r) as -> by (by destruct (decide (x = r))).
  rewrite filter_ne_absent by done. lia.
Qed.

(** X13. A graph never has more nodes than the dump has whole 4096-byte
    pages, plus one: every table but the root sits at a multiple of 4096
    inside the dump, and no table has two nodes. *)
Theorem graph_size_bounded (dump_bytes : list byte)
    (dump_base_phys_addr pml4_offset_in_dump : Z) :
  ∃ o,
    parse_paging_structure dump_bytes dump_base_phys_addr pml4_offset_in_dump
    = Ok o ∧
    Z.of_nat (length (node_names (graph o)))
    ≤ Z.of_nat (length dump_bytes) / 4096 + 1.
Proof.
  eexists. split; [by apply parse_total|].
  set (o := walk_outcome dump_bytes dump_base_phys_addr pml4_offset_in_dump).
  set (root := dump_base_phys_addr + pml4_offset_in_dump).
  pose proof (walk_outcome_wf dump_bytes dump_base_phys_addr
                pml4_offset_in_dump) as Hwf. fold o in Hwf.
  pose proof (dot_wf_NoDup _ _ _ Hwf) as Hnd.
  rewrite (node_addrs_names _ _ _ Hwf) in Hnd |- *.
  apply NoDup_fmap_1 in Hnd. rewrite length_fmap.
  pose proof (length_without _ root Hnd) as Hlen.
  pose proof (NoDup_filter (λ x, x ≠ root) _ Hnd) as Hnd'.
  assert (Hmem : ∀ x, x ∈ filter (λ x, x ≠ root) (node_addrs (graph o)) →
                      x ≠ root ∧ x ∈ node_addrs (graph o))
    by (intros x Hx; by apply list_elem_of_filter in Hx).
  remember (filter (λ x, x ≠ root) (node_addrs (graph o))) as rest
    eqn:Hrestdef.
  clear Hrestdef.
  pose proof (Z.div_pos (Z.of_nat (length dump_bytes)) 4096
                ltac:(lia) ltac:(lia)) as Hpages.
  destruct (decide (rest = [])) as [->|Hrest];
    [change (length (@nil Z)) with 0%nat in Hlen; lia|].
  assert (Hin : ∀ x, x ∈ rest →
            x mod 4096 = 0 ∧
            0 ≤ x - dump_base_phys_addr
              ≤ Z.of_nat (length dump_bytes) - 4096).
  { intros x [Hne Hx]%Hmem.
    apply node_addrs_elem in Hx as (n & lbl & Hnode & <-).
    destruct (walk_outcome_exact dump_bytes dump_base_phys_addr
                pml4_offset_in_dump) as (Hsound & _ & _).
    rewrite Forall_forall in Hsound.
    destruct (Hsound _ Hnode) as (_ & [Hb0 Hb1] & Hreach).
    unfold get_dump_offset in *. split; [|lia].
    apply rtc_inv_r in Hreach as [[= Heq _]|(z & _ & Hstep)];
      [by rewrite <- Heq in Hne|].
    destruct Hstep as [_ (i & _ & _ & _ & Hz)]. cbn in Hz. rewrite Hz.
    apply get_next_table_addr_range. }
  assert (HW : 0 ≤ Z.of_nat (length dump_bytes) - 4096).
  { destruct rest as [|x0 rest']; [done|].
    destruct (Hin x0) as [_ ?]; [left|lia]. }
  pose proof (count_multiples rest dump_base_phys_addr 4096 _
                ltac:(lia) HW Hnd' Hin) as Hcount.
  assert (Hdiv : (Z.of_nat (length dump_bytes) - 4096) / 4096 + 1
                 = Z.of_nat (length dump_bytes) / 4096).
  { rewrite <- Z.div_add by lia. f_equal. lia. }
  lia.
Qed.

Section longer_dump.

Variable dump_bytes extra : list byte.
Variable dump_base_phys_addr : Z.

Lemma in_bounds_app (pa : Z) :
  in_bounds dump_bytes dump_base_phys_addr pa →
  in_bounds (dump_bytes ++ extra) dump_base_phys_addr pa.
Proof. unfold in_bounds. rewrite length_app. lia. Qed.

Lemma entry_at_app (pa i : Z) :
  in_bounds dump_bytes dump_base_phys_addr pa → 0 ≤ i < 512 →
  entry_at (dump_bytes ++ extra) dump_base_phys_addr pa i
  = entry_at dump_bytes dump_base_phys_addr pa i.
Proof.
  intros [H0 H1] Hi. unfold entry_at, ENTRY_SIZE.
  rewrite !slice_inside by (rewrite ?length_app; lia).
  f_equal. rewrite drop_app_le by lia. apply take_app_le.
  rewrite length_drop. lia.
Qed.

Lemma points_to_app (x y : Z * table_type) :
  points_to dump_bytes dump_base_phys_addr x y →
  points_to (dump_bytes ++ extra) dump_base_phys_addr x y.
Proof.
  intros [Hb (i & Hi & Hd & Hty & Hy)]. split; [by apply in_bounds_app|].
  exists i. unfold child_of. rewrite entry_at_app by done. done.
Qed.

Lemma present_rows_app (pa : Z) :
  in_bounds dump_bytes dump_base_phys_addr pa →
  present_rows (dump_bytes ++ extra) dump_base_phys_addr pa
  = present_rows dump_bytes dump_base_phys_addr pa.
Proof.
  intros Hb. unfold present_rows.
  rewrite (filter_ext_elem _
             (λ i, Z.testbit (entry_at dump_bytes dump_base_phys_addr pa i) 0)).
  - apply list_fmap_ext. intros k i Hi. unfold row_of.
    rewrite entry_at_app; [done..|].
    apply list_elem_of_lookup_2, list_elem_of_filter in Hi as [_ Hi].
    by apply slot_range.
  - intros i Hi%slot_range. by rewrite entry_at_app.
Qed.

End longer_dump.

(** X14. A longer capture of the same memory only adds to the graph: when
    bytes are appended to the dump, every node of the old graph is in the
    new one with the same address and the same rows, and every edge of the
    old graph is an edge of the new one. *)
Theorem longer_dump_keeps_graph (dump_bytes extra : list byte)
    (dump_base_phys_addr pml4_offset_in_dump : Z) :
  ∃ o o',
    parse_paging_structure dump_bytes dump_base_phys_addr pml4_offset_in_dump
    = Ok o ∧
    parse_paging_structure (dump_bytes ++ extra) dump_base_phys_addr
      pml4_offset_in_dump = Ok o' ∧
    (∀ n lbl, node n lbl ∈ graph o →
       ∃ lbl', node n lbl' ∈ graph o' ∧
               label_addr lbl' = label_addr lbl ∧
               label_rows lbl' = label_rows lbl) ∧
    (∀ t h l, edge t h l ∈ graph o → edge t h l ∈ graph o').
Proof.
  exists (walk_outcome dump_bytes dump_base_phys_addr pml4_offset_in_dump),
    (walk_outcome (dump_bytes ++ extra) dump_base_phys_addr
       pml4_offset_in_dump).
  split; [by apply parse_total|]. split; [by apply parse_total|].
  destruct (walk_outcome_exact dump_bytes dump_base_phys_addr
              pml4_offset_in_dump) as (Hsound & _ & _).
  destruct (walk_outcome_exact (dump_bytes ++ extra) dump_base_phys_addr
              pml4_offset_in_dump) as (_ & _ & Hdone').
  rewrite Forall_forall in Hsound.
  assert (Hreach : ∀ y,
    rtc (points_to dump_bytes dump_base_phys_addr)
        (dump_base_phys_addr + pml4_offset_in_dump, PML4) y →
    rtc (points_to (dump_bytes ++ extra) dump_base_phys_addr)
        (dump_base_phys_addr + pml4_offset_in_dump, PML4) y).
  { intros y. apply rtc_subrel. intros ? ?. apply points_to_app. }
  split.
  - intros n lbl Hin. destruct (Hsound _ Hin) as (-> & Hb & Hr).
    pose proof (walk_outcome_covers _ _ _ _ (Hreach _ Hr)
                  (in_bounds_app _ _ _ _ Hb)) as Hn.
    apply node_names_elem in Hn as [lbl' Hin']. exists lbl'.
    split; [done|].
    destruct (dot_wf_node _ _ _ _ _ (walk_outcome_wf _ _ _) Hin)
      as (_ & _ & ->).
    destruct (dot_wf_node _ _ _ _ _ (walk_outcome_wf _ _ _) Hin')
      as (Hid & _ & ->).
    apply node_id_of_inj in Hid. rewrite <- Hid. split; [done|].
    by apply present_rows_app.
  - intros t h l Hin.
    destruct (Hsound _ Hin)
      as ([pa ty] & i & Hr & Hb & Hi & Hd & Hbc & -> & -> & ->).
    cbn [fst snd] in *.
    destruct (Hdone' _ (Hreach _ Hr)) as [_ Hedges]. cbn [fst snd] in Hedges.
    specialize (Hedges i (in_bounds_app _ _ _ _ Hb) Hi).
    unfold child_of in *. rewrite entry_at_app in Hedges by done.
    apply Hedges; [done|]. by apply in_bounds_app.
Qed.

(** * Manifest metadata of [bench/setup.py] *)

Module Setup.

(** A value of a parsed TOML document.  A table is a dictionary, kept as the
    list of its items in the order of the document. *)
Inductive toml : Type :=
| TTable (items : list (string * toml))
| TArray (elements : list toml)
| TString (s : string)
| TInt (n : Z)
| TBool (b : bool)
| TFloat (text : string)
| TDatetime (text : string).

Inductive exception : Type :=
| KeyError (key : string)
| TypeError
| AttributeError
| FileNotFoundError (e : string)
| TomlDecodeError (e : string)
| OtherError (e : string).

Inductive exc (T : Type) : Type :=
| Val (a : T)
| Exc (e : exception).
Arguments Val {T} a.
Arguments Exc {T} e.

#[global] Instance exc_bind : MBind exc := λ T U (k : T → exc U) (m : exc T),
  match m with
  | Val a => k a
  | Exc e => Exc e
  end.

(** [d.get(key)] on the items of a dictionary. *)
Fixpoint assoc (key : string) (items : list (string * toml)) : option toml :=
  match items with
  | [] => None
  | (k, v) :: rest => if String.eqb k key then Some v else assoc key rest
  end.

(** [d[key]] *)
Definition getitem (d : toml) (key : string) : exc toml :=
  match d with
  | TTable items =>
      match assoc key items with
      | Some v => Val v
      | None => Exc (KeyError key)
      end
  | _ => Exc TypeError
  end.

(** Some occurrence of [key] in [s] starts at or after position 0. *)
Definition substring_of (key s : string) : bool :=
  match String.index 0 key s with Some _ => true | None => false end.

(** [key in d] *)
Definition contains (d : toml) (key : string) : exc bool :=
  match d with
  | TTable items =>
      Val (match assoc key items with Some _ => true | None => false end)
  | TArray elements =>
      Val (existsb (λ x, match x with
                         | TString s => String.eqb s key
                         | _ => false
                         end) elements)
  | TString s => Val (substring_of key s)
  | _ => Exc TypeError
  end.

(** [list(d.keys())] *)
Definition keys (d : toml) : exc (list string) :=
  match d with
  | TTable items => Val (items.*1)
  | _ => Exc AttributeError
  end.

(** The dictionary [metadata]. *)
Record metadata : Type := Metadata {
  name : option toml;
  features : list string;
  target : option toml
}.

Section get_cargo_metadata.

(** The libraries the function calls: paths, and what opening and parsing
    the file at a path gives. *)
Variable path : Type.
Variable join_path : path → string → path.
Variable path_str : path → string.
Variable load : path → exc (list (string * toml)).

(** The statements of the [try] block after [toml.load]; the document it
    returned is the dictionary [cargo_config]. *)
Definition read_config (items : list (string * toml)) : exc metadata :=
  let cargo_config := TTable items in
  package ← getitem cargo_config "package";
  name_value ← getitem package "name";
  let m := Metadata (Some name_value) [] None in
  has_package ← contains cargo_config "package";
  m ← (if has_package : bool then
         package ← getitem cargo_config "package";
         has_target ← contains package "forced-target";
         if has_target : bool then
           package ← getitem cargo_config "package";
           forced ← getitem package "forced-target";
           Val (Metadata (name m) (features m) (Some forced))
         else Val m
       else Val m);
  has_features ← contains cargo_config "features";
  if has_features : bool then
    table ← getitem cargo_config "features";
    names ← keys table;
    Val (Metadata (name m) names (target m))
  else Val m.

Definition warning (cargo_toml : path) (e : string) : string :=
  "Warning: Couldn't parse " +:+ path_str cargo_toml +:+ ": " +:+ e.

(** The result pairs what was printed with what the call returned or
    raised. *)
Definition get_cargo_metadata (project_dir : path)
    : list string * exc metadata :=
  let cargo_toml := join_path project_dir "Cargo.toml" in
  match cargo_config ← load cargo_toml; read_config cargo_config with
  | Val m => ([], Val m)
  | Exc (FileNotFoundError e) | Exc (TomlDecodeError e) =>
      ([warning cargo_toml e], Val (Metadata None [] None))
  | Exc e => ([], Exc e)
  end.

End get_cargo_metadata.

Section get_cargo_metadata_properties.

Variable path : Type.
Variable join_path : path → string → path.
Variable path_str : path → string.
Variable load : path → exc (list (string * toml)).

Abbreviation metadata_of := (get_cargo_metadata path join_path path_str load).

Lemma read_config_package (config items : list (string * toml)) :
  assoc "package" config = Some (TTable items) →
  read_config config
  = match assoc "name" items with
    | None => Exc (KeyError "name")
    | Some name_value =>
        match assoc "features" config with
        | None =>
            Val (Metadata (Some name_value) [] (assoc "forced-target" items))
        | Some (TTable table) =>
            Val (Metadata (Some name_value) (table.*1)
                          (assoc "forced-target" items))
        | Some _ => Exc AttributeError
        end
    end.
Proof.
  intros Hp. unfold read_config. cbn [getitem contains mbind exc_bind].
  rewrite Hp. cbn [getitem contains mbind exc_bind].
  destruct (assoc "name" items) as [name_value|]; [|done].
  cbn [mbind exc_bind].
  destruct (assoc "forced-target" items) as [forced|];
    cbn [mbind exc_bind name features target];
    destruct (assoc "features" config) as [[]|]; reflexivity.
Qed.

(** X15. Which failures [get_cargo_metadata] absorbs and which escape it.  A
    missing file and a TOML syntax error are absorbed: one warning naming the
    file is printed and the default metadata (no name, no feature, no
    target) is returned.  Everything else escapes with nothing printed: any
    other error of opening the file, KeyError when the document has no
    package table (a workspace manifest) or the package has no name,
    TypeError when package is not a table, AttributeError when features is
    not a table. *)
Theorem manifest_failures (project_dir : path) :
  let cargo_toml := join_path project_dir "Cargo.toml" in
  (∀ e, load cargo_toml = Exc (FileNotFoundError e)
        ∨ load cargo_toml = Exc (TomlDecodeError e) →
        metadata_of project_dir
        = ([warning path path_str cargo_toml e],
           Val (Metadata None [] None))) ∧
  (∀ e, load cargo_toml = Exc e →
        (∀ text, e ≠ FileNotFoundError text ∧ e ≠ TomlDecodeError text) →
        metadata_of project_dir = ([], Exc e)) ∧
  (∀ config, load cargo_toml = Val config →
     (assoc "package" config = None →
      metadata_of project_dir = ([], Exc (KeyError "package"))) ∧
     (∀ package, assoc "package" config = Some package →
                 (∀ items, package ≠ TTable items) →
                 metadata_of project_dir = ([], Exc TypeError)) ∧
     (∀ items, assoc "package" config = Some (TTable items) →
               assoc "name" items = None →
               metadata_of project_dir = ([], Exc (KeyError "name"))) ∧
     (∀ items name_value table,
        assoc "package" config = Some (TTable items) →
        assoc "name" items = Some name_value →
        assoc "features" config = Some table →
        (∀ entries, table ≠ TTable entries) →
        metadata_of project_dir = ([], Exc AttributeError))).
Proof.
  intros cargo_toml. unfold get_cargo_metadata. fold cargo_toml.
  split; [|split].
  - intros e [-> | ->]; reflexivity.
  - intros e -> Hne. cbn [mbind exc_bind].
    destruct e; try reflexivity; by destruct (Hne e) as [? ?].
  - intros config ->. cbn [mbind exc_bind]. split; [|split; [|split]].
    + intros Hp. unfold read_config. cbn [getitem mbind exc_bind].
      by rewrite Hp.
    + intros package Hp Hnt. unfold read_config.
      cbn [getitem mbind exc_bind]. rewrite Hp. cbn [mbind exc_bind].
      destruct package; try reflexivity. by destruct (Hnt items).
    + intros items Hp Hn. by rewrite (read_config_package _ _ Hp), Hn.
    + intros items name_value table Hp Hn Hf Hnt.
      rewrite (read_config_package _ _ Hp), Hn, Hf.
      destruct table; try reflexivity. by destruct (Hnt items0).
Qed.

(** X16. What [get_cargo_metadata] returns for a manifest that parsed.  It
    returns a value iff the document has a package table with a name and its
    features entry, when it has one, is a table (with a features entry that
    is not a table it raises instead).  Then nothing is printed, the name is
    that name (never absent), the target is the package's forced-target when
    it has one and absent otherwise, and the features are the keys of the
    features table in the order of the document, or none when the document
    has no features entry. *)
Theorem manifest_metadata (project_dir : path)
    (config : list (string * toml)) (out : list string) (m : metadata) :
  load (join_path project_dir "Cargo.toml") = Val config →
  metadata_of project_dir = (out, Val m) ↔
  out = [] ∧
  ∃ items name_value,
    assoc "package" config = Some (TTable items) ∧
    assoc "name" items = Some name_value ∧
    name m = Some name_value ∧
    target m = assoc "forced-target" items ∧
    match assoc "features" config with
    | None => features m = []
    | Some (TTable table) => features m = table.*1
    | Some _ => False
    end.
Proof.
  intros Hload. unfold get_cargo_metadata. rewrite Hload.
  cbn [mbind exc_bind]. split.
  - destruct (assoc "package" config) as [[items| | | | | |]|] eqn:Hp;
      try (unfold read_config; cbn [getitem mbind exc_bind]; rewrite Hp;
           discriminate).
    rewrite (read_config_package _ _ Hp).
    destruct (assoc "name" items) as [name_value|] eqn:Hn; [|discriminate].
    destruct (assoc "features" config) as [[table| | | | | |]|] eqn:Hf;
      try discriminate; intros [= <- <-]; (split; [done|]);
      by exists items, name_value.
  - intros (-> & items & name_value & Hp & Hn & Hname & Htarget & Hfeat).
    rewrite (read_config_package _ _ Hp), Hn.
    destruct m as [mn mf mt]. cbn [name features target] in *. subst mn mt.
    destruct (assoc "features" config) as [[table| | | | | |]|];
      try done; by subst mf.
Qed.

End get_cargo_metadata_properties.

Lemma manifest_metadata_witness :
  get_cargo_metadata string String.append id
    (λ _, Val [("package",
                TTable [("name", TString "vmi");
                        ("forced-target", TString "x86_64-unknown-none")]);
               ("features", TTable [("kvm", TArray []); ("wasm", TArray [])])])
    "guest/"
  = ([], Val (Metadata (Some (TString "vmi")) ["kvm"; "wasm"]
                       (Some (TString "x86_64-unknown-none")))).
Proof.
  eapply manifest_metadata; [reflexivity|].
  split; [done|]. eexists _, _. cbn. done.
Defined.

End Setup.

(** * Only the tables the walk reaches matter *)

Section same_tables.

Variable dump_bytes dump_bytes' : list byte.
Variable dump_base_phys_addr : Z.

Hypothesis same_length : length dump_bytes = length dump_bytes'.

(** The two dumps hold the same slots in every table inside the dump that
    the walk of the first reaches from [x]. *)
Definition agree_from (x : Z * table_type) : Prop :=
  ∀ y, rtc (points_to dump_bytes dump_base_phys_addr) x y →
       in_bounds dump_bytes dump_base_phys_addr y.1 →
       ∀ i, 0 ≤ i < 512 →
            entry_at dump_bytes dump_base_phys_addr y.1 i
            = entry_at dump_bytes' dump_base_phys_addr y.1 i.

Lemma in_bounds_same (pa : Z) :
  in_bounds dump_bytes dump_base_phys_addr pa ↔
  in_bounds dump_bytes' dump_base_phys_addr pa.
Proof. unfold in_bounds. by rewrite same_length. Qed.

Lemma walk_children_agree child child' (pa : Z) (l : list Z) :
  (∀ i, i ∈ l →
        entry_at dump_bytes dump_base_phys_addr pa i
        = entry_at dump_bytes' dump_base_phys_addr pa i ∧
        ∀ s, child (child_of dump_bytes dump_base_phys_addr pa i) s
             = child' (child_of dump_bytes dump_base_phys_addr pa i) s) →
  ∀ acc,
    walk_children dump_bytes dump_base_phys_addr child pa l acc
    = walk_children dump_bytes' dump_base_phys_addr child' pa l acc.
Proof.
  induction l as [|i l IH]; intros Hl [s nl]; [done|].
  unfold walk_children. cbn [foldl]. destruct (Hl i) as [He Hc]; [by left|].
  unfold child_of in *. rewrite <- He, Hc.
  destruct (child' _ s) as [s' r].
  apply (IH (λ j Hj, Hl j (list_elem_of_further _ _ _ Hj))).
Qed.

Lemma walk_step_agree ty child child' :
  (∀ ty', next_table_types ty = Some ty' →
          ∀ pa s, agree_from (pa, ty') → child pa s = child' pa s) →
  ∀ pa s, agree_from (pa, ty) →
    walk_step dump_bytes dump_base_phys_addr ty child pa s
    = walk_step dump_bytes' dump_base_phys_addr ty child' pa s.
Proof.
  intros Hnext pa s Hagree. unfold walk_step.
  destruct (decide (in_bounds dump_bytes dump_base_phys_addr pa)) as [Hb|Hb];
    cycle 1.
  { rewrite decide_False; [done|]. by rewrite <- in_bounds_same. }
  rewrite (decide_True (P := in_bounds dump_bytes' _ _))
    by (by apply in_bounds_same).
  assert (Hent : ∀ i, 0 ≤ i < 512 →
            entry_at dump_bytes dump_base_phys_addr pa i
            = entry_at dump_bytes' dump_base_phys_addr pa i).
  { intros i Hi. by apply (Hagree (pa, ty) (rtc_refl _ _)). }
  assert (Hdesc : descending dump_bytes dump_base_phys_addr ty pa
                  = descending dump_bytes' dump_base_phys_addr ty pa).
  { unfold descending. apply filter_ext_elem.
    intros i Hi%slot_range. by rewrite Hent. }
  assert (Hrows : present_rows dump_bytes dump_base_phys_addr pa
                  = present_rows dump_bytes' dump_base_phys_addr pa).
  { unfold present_rows.
    rewrite (filter_ext_elem _
      (λ i, Z.testbit (entry_at dump_bytes' dump_base_phys_addr pa i) 0))
      by (intros i Hi%slot_range; by rewrite Hent).
    apply list_fmap_ext. intros k i Hi. unfold row_of. rewrite Hent; [done|].
    apply list_elem_of_lookup_2, list_elem_of_filter in Hi as [_ Hi].
    by apply slot_range. }
  rewrite <- Hdesc, <- Hrows.
  rewrite (walk_children_agree child child'); [done|].
  intros i [Hi Hd]%descending_spec. split; [by apply Hent|].
  intros s'. destruct (descends_next _ _ Hd) as [ty' Hty'].
  apply (Hnext ty' Hty'). intros y Hy. apply Hagree.
  eapply rtc_l; [|exact Hy]. split; [done|]. by exists i.
Qed.

Lemma walk_agree ty pa s :
  agree_from (pa, ty) →
  walk dump_bytes dump_base_phys_addr ty pa s
  = walk dump_bytes' dump_base_phys_addr ty pa s.
Proof.
  assert (HPT : ∀ pa s, agree_from (pa, PT) →
            walk_PT dump_bytes dump_base_phys_addr pa s
            = walk_PT dump_bytes' dump_base_phys_addr pa s).
  { apply walk_step_agree. by intros ? [=]. }
  assert (HPD : ∀ pa s, agree_from (pa, PD) →
            walk_PD dump_bytes dump_base_phys_addr pa s
            = walk_PD dump_bytes' dump_base_phys_addr pa s).
  { apply walk_step_agree. by intros ? [= <-]. }
  assert (HPDPT : ∀ pa s, agree_from (pa, PDPT) →
            walk_PDPT dump_bytes dump_base_phys_addr pa s
            = walk_PDPT dump_bytes' dump_base_phys_addr pa s).
  { apply walk_step_agree. by intros ? [= <-]. }
  destruct ty; cbn [walk]; [|by auto..].
  apply walk_step_agree. by intros ? [= <-].
Qed.

End same_tables.

(** X17. The outcome of a run depends only on the length of the dump and on
    the tables the walk reaches: two dumps of equal length that hold the same
    slots in every table inside the dump reached from the root give the same
    graph and the same printed lines, whatever the bytes elsewhere. *)
Theorem unreached_bytes_do_not_matter (dump_bytes dump_bytes' : list byte)
    (dump_base_phys_addr pml4_offset_in_dump : Z) :
  length dump_bytes = length dump_bytes' →
  (∀ pa ty,
     rtc (points_to dump_bytes dump_base_phys_addr)
         (dump_base_phys_addr + pml4_offset_in_dump, PML4) (pa, ty) →
     in_bounds dump_bytes dump_base_phys_addr pa →
     ∀ i, 0 ≤ i < 512 →
          entry_at dump_bytes dump_base_phys_addr pa i
          = entry_at dump_bytes' dump_base_phys_addr pa i) →
  parse_paging_structure dump_bytes dump_base_phys_addr pml4_offset_in_dump
  = parse_paging_structure dump_bytes' dump_base_phys_addr
      pml4_offset_in_dump.
Proof.
  intros Hlen Hsame. unfold parse_paging_structure.
  rewrite !parse_total by done. unfold walk_outcome.
  rewrite (walk_agree dump_bytes dump_bytes' dump_base_phys_addr Hlen PML4);
    [done|].
  intros [pa ty] Hy. cbn [fst]. by apply (Hsame pa ty).
Qed.

Lemma unreached_bytes_do_not_matter_witness :
  parse_paging_structure (dump_self ++ zeros 4096) 0 0
  = parse_paging_structure (dump_self ++ replicate 4096 xff) 0 0.
Proof.
  apply unreached_bytes_do_not_matter; [reflexivity|].
  assert (Htargets : Forall (λ i, child_of (dump_self ++ zeros 4096) 0 0 i = 0)
                       (seqZ 0 512)) by compute_done.
  assert (Hslots : Forall (λ i,
            entry_at (dump_self ++ zeros 4096) 0 0 i
            = entry_at (dump_self ++ replicate 4096 xff) 0 0 i)
            (seqZ 0 512)) by compute_done.
  rewrite Forall_forall in Htargets, Hslots.
  assert (Hzero : ∀ y, rtc (points_to (dump_self ++ zeros 4096) 0)
                           (0 + 0, PML4) y → y.1 = 0).
  { apply (rtc_ind_r (λ y, y.1 = 0)); [done|].
    intros y z _ [_ (i & Hi & _ & _ & Hz)] IH.
    rewrite Hz, IH. apply Htargets, elem_of_seqZ. lia. }
  intros pa ty Hreach _ i Hi. pose proof (Hzero _ Hreach) as Hpa.
  cbn [fst] in Hpa. subst pa. apply Hslots, elem_of_seqZ. lia.
Defined.
